(** * SmartChunker (queries/chunker.py): token estimation, greedy chunking,
    prompt rendering and statistics.

    The Python code is embedded shallowly.  A [str] is a list of Unicode code
    points, a message row (a [dict] returned by the query layer) is a record
    of the keys the chunker reads, and the two floating-point expressions of
    the module ([len(...) * 1.3] and [round(total / len, 1)]) are evaluated
    with a small exact model of binary64 rounding. *)

From Stdlib Require Import String Ascii ZArith NArith Bool List Lia.
Import ListNotations.
Open Scope Z_scope.

(** ** Python strings *)

Module PyStr.

(** A code point, and a [str]. *)
Definition char : Type := N.
Definition str : Type := list char.

Definition char_of_ascii (a : ascii) : char := N_of_ascii a.

Fixpoint str_of_string (s : string) : str :=
  match s with
  | EmptyString => []
  | String a s' => char_of_ascii a :: str_of_string s'
  end.

(** [str.isspace] for one code point: the table CPython uses for
    [str.split()] and [str.strip()] without arguments. *)
Definition isspace (c : char) : bool :=
  ((9 <=? c) && (c <=? 13)             (* \t \n \v \f \r *)
   || (28 <=? c) && (c <=? 32)         (* FS GS RS US and the space *)
   || (c =? 133) || (c =? 160)         (* NEL, no-break space *)
   || (c =? 5760)                      (* U+1680 *)
   || (8192 <=? c) && (c <=? 8202)     (* U+2000 .. U+200A *)
   || (c =? 8232) || (c =? 8233)       (* U+2028, U+2029 *)
   || (c =? 8239) || (c =? 8287)       (* U+202F, U+205F *)
   || (c =? 12288))%N.                 (* U+3000 *)

(** Truth value of a [str]: empty strings are false. *)
Definition truthy (s : str) : bool :=
  match s with [] => false | _ :: _ => true end.

(** [s.split()]: the maximal runs of non-whitespace characters, in order.
    [cur] is the run being read, most recent character first. *)
Fixpoint split_from (cur : str) (s : str) : list str :=
  match s with
  | [] => if truthy cur then [rev cur] else []
  | c :: s' =>
      if isspace c
      then (if truthy cur then rev cur :: split_from [] s'
            else split_from [] s')
      else split_from (c :: cur) s'
  end.

Definition split (s : str) : list str := split_from [] s.

(** [s.lstrip()], [s.rstrip()] and [s.strip()]. *)
Fixpoint lstrip (s : str) : str :=
  match s with
  | [] => []
  | c :: s' => if isspace c then lstrip s' else s
  end.

Definition rstrip (s : str) : str := rev (lstrip (rev s)).

Definition strip (s : str) : str := rstrip (lstrip s).

(** [sep.join(parts)]. *)
Fixpoint join (sep : str) (parts : list str) : str :=
  match parts with
  | [] => []
  | [p] => p
  | p :: rest => p ++ sep ++ join sep rest
  end.

(** The character U+000A. *)
Definition newline : char := 10%N.

(** Decimal digit [d] (0..9) as a character, and numbers zero-padded to two
    and to four digits. *)
Definition digit (d : N) : char := (48 + d)%N.

Definition pad2 (n : N) : str := [digit (n / 10); digit (n mod 10)]%N.


(** [str(n)] for a natural number: its decimal digits, without padding.
    [fuel] bounds the number of digits, [acc] holds the digits already
    printed, lowest last. *)
Fixpoint decimal_digits (fuel : nat) (n : N) (acc : str) : str :=
  match fuel with
  | O => acc
  | S fuel' =>
      let acc' := digit (n mod 10) :: acc in
      if (n <? 10)%N then acc' else decimal_digits fuel' (n / 10) acc'
  end.

Definition decimal (n : N) : str :=
  decimal_digits (S (N.to_nat (N.log2 n))) n [].

(** [s.startswith(prefix)]. *)
Fixpoint startswith (s prefix : str) : bool :=
  match prefix, s with
  | [], _ => true
  | p :: prefix', c :: s' => (c =? p)%N && startswith s' prefix'
  | _ :: _, [] => false
  end.

(** The scan of [s.replace(old, new)] for a non-empty [old]: occurrences are
    taken leftmost first and do not overlap; [skip] counts the characters of
    the occurrence just replaced that are still to be passed over. *)
Fixpoint replace_from (old new : str) (skip : nat) (s : str) : str :=
  match s with
  | [] => []
  | c :: s' =>
      match skip with
      | S k => replace_from old new k s'
      | O =>
          if startswith s old
          then new ++ replace_from old new (length old - 1) s'
          else c :: replace_from old new O s'
      end
  end.

(** [s.replace(old, new)]; an empty [old] matches before every character
    and at the end. *)
Definition replace (s old new : str) : str :=
  match old with
  | [] => new ++ concat (map (fun c => c :: new) s)
  | _ :: _ => replace_from old new O s
  end.

End PyStr.

(** ** Python floats

  Only non-negative finite values occur: a word count times 1.3 and a token
  total divided by a message count.  A value is [mant * 2 ^ expo] with
  [2^52 <= mant <= 2^53] (or [mant = 0]); every operation rounds the exact
  rational result to nearest, ties to even, as IEEE 754 binary64 does inside
  the normal range. *)

Module PyFloat.

Record float : Type := { mant : Z; expo : Z }.

(** Nearest integer to [n / d] for [d > 0], ties to the even neighbour. *)
Definition rne_div (n d : Z) : Z :=
  let q := n / d in
  let r := n mod d in
  match 2 * r ?= d with
  | Lt => q
  | Gt => q + 1
  | Eq => if Z.even q then q else q + 1
  end.

(** [2^e] when [e >= 0], and 1 otherwise: the integer factor by which a
    power of two enters a numerator or a denominator. *)
Definition pow2 (e : Z) : Z := 2 ^ Z.max 0 e.

(** The exact value of a float, as a fraction of integers. *)
Definition num_of (x : float) : Z := mant x * pow2 (expo x).
Definition den_of (x : float) : Z := pow2 (- expo x).

(** The binary64 value nearest to the rational [n / d], [n >= 0], [d > 0]:
    the exponent [e] is the one with [2^52 <= n / (d * 2^e) < 2^53], the
    mantissa is that scaled quotient rounded to an integer. *)
Definition round_ratio (n d : Z) : float :=
  if n =? 0 then {| mant := 0; expo := 0 |}
  else
    let e0 := Z.log2 n - Z.log2 d - 52 in
    let e := if n * pow2 (- e0) <? 2 ^ 52 * (d * pow2 e0)
             then e0 - 1 else e0 in
    {| mant := rne_div (n * pow2 (- e)) (d * pow2 e); expo := e |}.

(** [float(i)] for an [int]. *)
Definition of_int (i : Z) : float := round_ratio i 1.

(** A decimal literal [n / d]: [1.3] is [literal 13 10]. *)
Definition literal (n d : Z) : float := round_ratio n d.

(** [x * y] on floats. *)
Definition mul (x y : float) : float :=
  round_ratio (num_of x * num_of y) (den_of x * den_of y).

(** [a / b] on two [int]s (true division, correctly rounded). *)
Definition truediv (a b : Z) : float := round_ratio a b.

(** [int(x)]: truncation; the values here are never negative. *)
Definition to_int (x : float) : Z := num_of x / den_of x.

(** [round(x, 1)], returned as a number of tenths: the decimal with one
    fractional digit nearest to the exact value of [x], ties to even.  The
    float Python returns is the binary64 value nearest to that decimal. *)
Definition round1 (x : float) : Z := rne_div (10 * num_of x) (den_of x).

End PyFloat.

(** ** The chunker *)

Module SmartChunker.
Import PyStr.

(** *** Message rows *)

(** The fields of a [datetime.datetime] that the renderer prints. *)
Record datetime : Type :=
  { year : N; month : N; day : N; hour : N; minute : N; second : N }.


(** [ts.strftime("%Y-%m-%d %H:%M")] as CPython on glibc prints it: the
    month, day, hour and minute on two digits, the year in decimal without
    padding, so on four digits from the year 1000 on and on fewer before. *)
Definition strftime (d : datetime) : str :=
  decimal (year d) ++ str_of_string "-" ++ pad2 (month d)
    ++ str_of_string "-" ++ pad2 (day d) ++ str_of_string " "
    ++ pad2 (hour d) ++ str_of_string ":" ++ pad2 (minute d).

(** A value stored under ["created_at"]: a [datetime] (what the database
    driver returns) or any other value, here a [str]; the renderer tests
    [isinstance(ts, datetime)] and prints the rest with [str(ts)]. *)
Inductive timestamp : Type :=
| TsDatetime (d : datetime)
| TsStr (s : str).

(** A message row.  A key that is missing and a key bound to [None] both
    read as [None] through [msg.get(key)]; [extras] holds the keys the
    chunker never reads (ids, server and channel names). *)
Record message : Type :=
  { content : option str;
    author : option str;
    current_username : option str;
    created_at : option timestamp;
    extras : list (string * str) }.

(** [v or default] for [v] a [str] or [None]. *)
Definition or_text (v : option str) (default : str) : str :=
  match v with
  | Some s => if truthy s then s else default
  | None => default
  end.

(** Truth value of [msg.get("created_at")]. *)
Definition ts_truthy (v : option timestamp) : bool :=
  match v with
  | Some (TsDatetime _) => true
  | Some (TsStr s) => truthy s
  | None => false
  end.

(** [ts.strftime(...) if isinstance(ts, datetime) else str(ts)]. *)
Definition ts_str (v : option timestamp) : str :=
  match v with
  | Some (TsDatetime d) => strftime d
  | Some (TsStr s) => s
  | None => str_of_string "None"
  end.

(** *** Class constants *)

Definition DEFAULT_MAX_TOKENS : Z := 8000.

Definition TOKENS_PER_WORD : PyFloat.float := PyFloat.literal 13 10.

(** *** estimate_tokens *)

Definition estimate_tokens (text : str) : Z :=
  if negb (truthy text) then 0
  else
    Z.max 1
      (PyFloat.to_int
         (PyFloat.mul (PyFloat.of_int (Z.of_nat (length (split text))))
                      TOKENS_PER_WORD)).

(** [cls.estimate_tokens(msg.get("content") or "")]. *)
Definition msg_tokens (msg : message) : Z :=
  estimate_tokens (or_text (content msg) []).

(** *** chunk_messages *)

(** The three local variables of the loop. *)
Record chunk_state : Type :=
  { chunks : list (list message);
    current_chunk : list message;
    current_tokens : Z }.

Definition nonempty {A : Type} (l : list A) : bool :=
  match l with [] => false | _ :: _ => true end.

(** One iteration of [for msg in messages]. *)
Definition chunk_step (max_tokens : Z) (st : chunk_state) (msg : message)
  : chunk_state :=
  let tokens := msg_tokens msg in
  if (current_tokens st + tokens >? max_tokens)
     && nonempty (current_chunk st)
  then {| chunks := chunks st ++ [current_chunk st];
          current_chunk := [msg];
          current_tokens := tokens |}
  else {| chunks := chunks st;
          current_chunk := current_chunk st ++ [msg];
          current_tokens := current_tokens st + tokens |}.

Definition chunk_init : chunk_state :=
  {| chunks := []; current_chunk := []; current_tokens := 0 |}.

(** The statements after the loop. *)
Definition chunk_finish (st : chunk_state) : list (list message) :=
  if nonempty (current_chunk st)
  then chunks st ++ [current_chunk st]
  else chunks st.

Definition chunk_messages (messages : list message) (max_tokens : Z)
  : list (list message) :=
  if negb (nonempty messages) then []
  else chunk_finish (fold_left (chunk_step max_tokens) messages chunk_init).

(** The body of [chunk_messages] contains no [raise]: a call with
    well-typed rows always returns. *)
Inductive outcome (A : Type) : Type :=
| Returned (value : A)
| Raised (error : string).
Arguments Returned {A} value.
Arguments Raised {A} error.

Definition chunk_messages_call (messages : list message) (max_tokens : Z)
  : outcome (list (list message)) :=
  Returned (chunk_messages messages max_tokens).

(** *** format_for_llm *)

Definition unknown : str := str_of_string "unknown".

(** One iteration of the rendering loop; [lines] is the list built so far. *)
Definition format_step (include_timestamps : bool) (lines : list str)
           (msg : message) : list str :=
  let author := or_text (author msg) (or_text (current_username msg) unknown) in
  let content := strip (or_text (content msg) []) in
  if negb (truthy content) then lines
  else if include_timestamps && ts_truthy (created_at msg)
  then lines ++ [str_of_string "[" ++ ts_str (created_at msg)
                   ++ str_of_string "] " ++ author
                   ++ str_of_string ": " ++ content]
  else lines ++ [author ++ str_of_string ": " ++ content].

Definition format_for_llm (messages : list message) (include_timestamps : bool)
  : str :=
  join [newline] (fold_left (format_step include_timestamps) messages []).

(** *** chunk_and_format *)

Definition chunk_and_format (messages : list message) (max_tokens : Z)
           (include_timestamps : bool) : list str :=
  map (fun chunk => format_for_llm chunk include_timestamps)
      (chunk_messages messages max_tokens).

(** *** stats *)

(** The returned dict.  [avg_tokens_per_message] is held in tenths: 40000
    stands for the float 4000.0 (and 0 for the [int] 0 of the empty case). *)
Record stats_result : Type :=
  { total_messages : Z;
    total_tokens : Z;
    estimated_chunks : Z;
    avg_tokens_per_message : Z }.

(** The builtin [sum] over a generator of [int]s. *)
Definition sum (l : list Z) : Z := fold_left Z.add l 0.

Definition stats (messages : list message) : stats_result :=
  if negb (nonempty messages)
  then {| total_messages := 0;
          total_tokens := 0;
          estimated_chunks := 0;
          avg_tokens_per_message := 0 |}
  else
    let total := sum (map msg_tokens messages) in
    let estimated := Z.max 1 (- (- total / DEFAULT_MAX_TOKENS)) in
    {| total_messages := Z.of_nat (length messages);
       total_tokens := total;
       estimated_chunks := estimated;
       avg_tokens_per_message :=
         PyFloat.round1 (PyFloat.truediv total (Z.of_nat (length messages))) |}.

End SmartChunker.

(** ** Reference definitions

  The notions the properties below compare the code with: the word count of
  a string, the greedy partition told as a recursive scan, the shape of a
  rendered timestamp and the line a record is rendered to. *)

Module Reference.
Import PyStr SmartChunker.

(** Number of whitespace-delimited words of [s]: a word starts at every
    non-space character that is the first one or follows a space. *)
Fixpoint word_starts (after_space : bool) (s : str) : nat :=
  match s with
  | [] => O
  | c :: s' =>
      if isspace c then word_starts true s'
      else ((if after_space then 1 else 0) + word_starts false s')%nat
  end.

Definition word_count (s : str) : Z := Z.of_nat (word_starts true s).

(** [max(1, round(w * 1.3))], rounding the exact product to the nearest
    integer. *)
Definition rounded_estimate (w : Z) : Z :=
  Z.max 1 (PyFloat.rne_div (13 * w) 10).

(** [max(1, floor(w * 1.3))]. *)
Definition truncated_estimate (w : Z) : Z := Z.max 1 (13 * w / 10).

(** Greedy left-to-right accumulation: [running] is the running chunk and
    [total] its token total; a closed chunk is emitted in front of the
    chunks of the remaining records. *)
Fixpoint greedy (max_tokens : Z) (running : list message) (total : Z)
         (records : list message) : list (list message) :=
  match records with
  | [] => if nonempty running then [running] else []
  | r :: rest =>
      if (total + msg_tokens r >? max_tokens) && nonempty running
      then running :: greedy max_tokens [r] (msg_tokens r) rest
      else greedy max_tokens (running ++ [r]) (total + msg_tokens r) rest
  end.

Definition greedy_chunks (records : list message) (max_tokens : Z)
  : list (list message) :=
  greedy max_tokens [] 0 records.

(** Sum of the token estimates of the records of a chunk. *)
Fixpoint chunk_tokens (chunk : list message) : Z :=
  match chunk with
  | [] => 0
  | m :: rest => msg_tokens m + chunk_tokens rest
  end.

(** A chunk is within budget unless it is a single record. *)
Definition within_budget (max_tokens : Z) (c : list message) : Prop :=
  (2 <= length c)%nat -> chunk_tokens c <= max_tokens.

(** Ceiling division of a non-negative total by a positive budget. *)
Definition ceil_div (t d : Z) : Z := (t + d - 1) / d.

(** The chunk count as "the ceiling, with minimum 1 if any tokens". *)
Definition chunks_if_any_tokens (t : Z) : Z :=
  if 0 <? t then Z.max 1 (ceil_div t DEFAULT_MAX_TOKENS)
  else ceil_div t DEFAULT_MAX_TOKENS.

(** A line ends with a character that is not a space. *)
Definition ends_unspaced (line : str) : Prop :=
  exists (p : str) (c : char), line = p ++ [c] /\ isspace c = false.

(** [c] is the ceiling of [t / d]. *)
Definition is_ceiling (t d c : Z) : Prop := d * (c - 1) < t <= d * c.



(** The trimmed content of a record, and whether it is rendered at all. *)
Definition trimmed (m : message) : str := strip (or_text (content m) []).

Definition has_content (m : message) : bool := truthy (trimmed m).

(** Author resolution by truth value: a field that is absent or empty is
    passed over. *)
Definition resolved_author (m : message) : str :=
  match author m with
  | Some (c :: a) => c :: a
  | _ =>
      match current_username m with
      | Some (c :: u) => c :: u
      | _ => unknown
      end
  end.

(** The bracketed prefix of a line. *)
Definition stamp_prefix (include_timestamps : bool) (m : message) : str :=
  if include_timestamps then
    match created_at m with
    | Some (TsDatetime d) =>
        str_of_string "[" ++ strftime d ++ str_of_string "] "
    | Some (TsStr (c :: s)) =>
        str_of_string "[" ++ (c :: s) ++ str_of_string "] "
    | _ => []
    end
  else [].

Definition rendered_line (include_timestamps : bool) (m : message) : str :=
  stamp_prefix include_timestamps m
    ++ resolved_author m ++ str_of_string ": " ++ trimmed m.



End Reference.

(** ** Sample rows *)

Module Samples.
Import PyStr SmartChunker.

(** A row with the given content and nothing else. *)
Definition row (c : str) : message :=
  {| content := Some c; author := None; current_username := None;
     created_at := None; extras := [] |}.

(** [n] copies of the word "w", each followed by a space. *)
Definition words (n : N) : str :=
  concat (repeat (str_of_string "w ") (N.to_nat n)).

Definition hello_world : str := str_of_string "hello world".

Definition three_spaces : str := str_of_string "   ".

(** 15 January 2024, 14:32:07. *)
Definition afternoon : datetime :=
  {| year := 2024; month := 1; day := 15;
     hour := 14; minute := 32; second := 7 |}.


(** A row as [channel_messages] returns it. *)
Definition alice_row : message :=
  {| content := Some (str_of_string "  Hello, how do I use malloc? ");
     author := Some (str_of_string "alice");
     current_username := None;
     created_at := Some (TsDatetime afternoon);
     extras := [("message_id"%string, str_of_string "1001")] |}.

(** An attachment-only post. *)
Definition blank_row : message :=
  {| content := Some three_spaces;
     author := Some (str_of_string "bob");
     current_username := None;
     created_at := Some (TsDatetime afternoon);
     extras := [] |}.

(** A row whose author is empty and whose timestamp was kept as the ISO
    text of the export. *)
Definition carol_row : message :=
  {| content := Some (str_of_string "hi");
     author := Some [];
     current_username := Some (str_of_string "carol");
     created_at := Some (TsStr (str_of_string "2024-01-15T14:32:00"));
     extras := [] |}.

(** A row with a display name and a textual timestamp. *)
Definition dave_row : message :=
  {| content := Some (str_of_string "hi");
     author := Some (str_of_string "dave");
     current_username := None;
     created_at := Some (TsStr (str_of_string "2024-01-15T14:32:00"));
     extras := [] |}.

(** Same content as [alice_row], every other field different. *)
Definition anonymous_row : message :=
  {| content := Some (str_of_string "  Hello, how do I use malloc? ");
     author := None;
     current_username := None;
     created_at := None;
     extras := [] |}.

End Samples.

(** ** The prompt filler (analysis/processor.py) *)

Module Processor.
Import PyStr.

(** The marker [f"{{{key}}}"]: the key between braces. *)
Definition placeholder (key : str) : str :=
  str_of_string "{" ++ key ++ str_of_string "}".

(** The body of [_fill_template]: [kwargs.items()] yields the keyword
    arguments in call order; the values are [str], so [str(value)] is the
    value. *)
Definition fill_template_body (template : str) (kwargs : list (str * str))
  : str :=
  fold_left (fun result kv => replace result (placeholder (fst kv)) (snd kv))
            kwargs template.

(** The name of the positional parameter. *)
Definition template_name : str := str_of_string "template".

(** A keyword is given twice. *)
Fixpoint repeated_key (keys : list str) : bool :=
  match keys with
  | [] => false
  | k :: rest =>
      (if in_dec (list_eq_dec N.eq_dec) k rest then true else false)
      || repeated_key rest
  end.

(** Binding the arguments of a call [_fill_template(template, **kwargs)]:
    Python raises [TypeError] when a keyword is named [template], the
    parameter already bound by position, and when a keyword is given twice;
    [kwargs] lists the keywords of the call in order. *)
Definition binding_fails (kwargs : list (str * str)) : bool :=
  (if in_dec (list_eq_dec N.eq_dec) template_name (map fst kwargs)
   then true else false)
  || repeated_key (map fst kwargs).

(** [_fill_template(template, **kwargs)]. *)
Definition fill_template (template : str) (kwargs : list (str * str))
  : SmartChunker.outcome str :=
  if binding_fails kwargs
  then SmartChunker.Raised "TypeError"
  else SmartChunker.Returned (fill_template_body template kwargs).

(** The opening and the closing brace. *)
Definition lbrace : char := 123%N.
Definition rbrace : char := 125%N.

End Processor.

(** ** Measures used by the further properties *)

Module Measures.
Import PyStr SmartChunker Reference.

(** Each chunk overflows the budget together with the first record of the
    chunk that follows it. *)
Fixpoint closed_by_overflow (max_tokens : Z) (chunks : list (list message))
  : Prop :=
  match chunks with
  | [] => True
  | c :: rest =>
      match rest with
      | [] => True
      | [] :: _ => False
      | (m :: _) :: _ =>
          max_tokens < chunk_tokens c + msg_tokens m
          /\ closed_by_overflow max_tokens rest
      end
  end.

(** Token total of a list of chunks. *)
Fixpoint chunks_tokens (chunks : list (list message)) : Z :=
  match chunks with
  | [] => 0
  | c :: rest => chunk_tokens c + chunks_tokens rest
  end.

(** Number of newline characters of a string. *)
Definition newlines (s : str) : nat := count_occ N.eq_dec s newline.

(** The strings a record contributes to its line hold no newline. *)
Definition single_line (m : message) : Prop :=
  ~ In newline (trimmed m)
  /\ (forall a, author m = Some a -> ~ In newline a)
  /\ (forall u, current_username m = Some u -> ~ In newline u)
  /\ (forall s, created_at m = Some (TsStr s) -> ~ In newline s).

(** [old] occurs in [s]. *)
Definition occurs (old s : str) : Prop :=
  exists a b : str, s = a ++ old ++ b.

End Measures.

(** ** The partition computed by [chunk_messages] *)

Section Chunking.
Import PyStr SmartChunker Reference.

Variable max_tokens : Z.

(** The loop, started in any state and finished, emits the chunks closed so
    far followed by the greedy chunks of the remaining records. *)
Lemma fold_chunk_step_greedy (l : list message) :
  forall st : chunk_state,
    chunk_finish (fold_left (chunk_step max_tokens) l st)
    = chunks st ++ greedy max_tokens (current_chunk st) (current_tokens st) l.
Proof.
  induction l as [| m l IH]; intros st; simpl.
  - unfold chunk_finish.
    destruct (nonempty (current_chunk st)); [reflexivity |].
    now rewrite app_nil_r.
  - rewrite IH. unfold chunk_step.
    destruct ((current_tokens st + msg_tokens m >? max_tokens)
              && nonempty (current_chunk st)); simpl.
    + now rewrite <- app_assoc.
    + reflexivity.
Qed.

Lemma chunk_messages_greedy (messages : list message) :
  chunk_messages messages max_tokens = greedy_chunks messages max_tokens.
Proof.
  destruct messages as [| m l]; [reflexivity |].
  unfold chunk_messages, greedy_chunks.
  change (negb (nonempty (m :: l))) with false; cbv iota.
  now rewrite fold_chunk_step_greedy.
Qed.

(** Flattening the greedy chunks gives back the running chunk followed by
    the records still to scan. *)
Lemma concat_greedy (l : list message) :
  forall (running : list message) (total : Z),
    concat (greedy max_tokens running total l) = running ++ l.
Proof.
  induction l as [| m l IH]; intros running total; simpl.
  - destruct running; simpl; [reflexivity |].
    now rewrite !app_nil_r.
  - destruct ((total + msg_tokens m >? max_tokens) && nonempty running);
      simpl; rewrite IH.
    + reflexivity.
    + now rewrite <- app_assoc.
Qed.

Lemma concat_chunk_messages (messages : list message) :
  concat (chunk_messages messages max_tokens) = messages.
Proof.
  rewrite chunk_messages_greedy. unfold greedy_chunks.
  now rewrite concat_greedy.
Qed.

Lemma estimate_tokens_nonneg (s : str) : 0 <= estimate_tokens s.
Proof.
  unfold estimate_tokens. destruct (negb (truthy s)); lia.
Qed.

Lemma msg_tokens_nonneg (m : message) : 0 <= msg_tokens m.
Proof. apply estimate_tokens_nonneg. Qed.

Lemma chunk_tokens_app (a b : list message) :
  chunk_tokens (a ++ b) = chunk_tokens a + chunk_tokens b.
Proof.
  induction a as [| m a IH]; simpl; [reflexivity | rewrite IH; lia].
Qed.

Lemma chunk_tokens_nonneg (c : list message) : 0 <= chunk_tokens c.
Proof.
  induction c as [| m c IH]; simpl; [lia |].
  pose proof (msg_tokens_nonneg m). lia.
Qed.

Lemma chunk_tokens_member (c : list message) (m : message) :
  In m c -> msg_tokens m <= chunk_tokens c.
Proof.
  induction c as [| x c IH]; simpl; [tauto |].
  intros [-> | H].
  - pose proof (chunk_tokens_nonneg c). lia.
  - specialize (IH H). pose proof (msg_tokens_nonneg x). lia.
Qed.

(** The running chunk of the scan carries its own total and is within
    budget; so is every chunk emitted from then on. *)
Lemma greedy_within_budget (l : list message) :
  forall (running : list message) (total : Z),
    total = chunk_tokens running ->
    within_budget max_tokens running ->
    Forall (within_budget max_tokens) (greedy max_tokens running total l).
Proof.
  induction l as [| m l IH]; intros running total Htot Hrun; subst total;
    simpl.
  - destruct (nonempty running); auto.
  - destruct (chunk_tokens running + msg_tokens m >? max_tokens) eqn:Hover;
      simpl.
    + destruct running as [| r running']; simpl.
      * apply IH; [simpl; lia |].
        intros Hlen; simpl in Hlen; lia.
      * constructor; [exact Hrun |].
        apply IH; [simpl; lia |].
        intros Hlen; simpl in Hlen; lia.
    + apply IH.
      * rewrite chunk_tokens_app; simpl; lia.
      * intros _. rewrite chunk_tokens_app; simpl.
        rewrite Z.gtb_ltb in Hover. apply Z.ltb_ge in Hover. lia.
Qed.

Lemma chunk_messages_within_budget (messages : list message) :
  Forall (within_budget max_tokens) (chunk_messages messages max_tokens).
Proof.
  rewrite chunk_messages_greedy.
  apply greedy_within_budget; [reflexivity |].
  intros Hlen; simpl in Hlen; lia.
Qed.

(** A record over budget cannot share a chunk that is within budget. *)
Lemma over_budget_alone (c : list message) (m : message) :
  within_budget max_tokens c -> In m c -> max_tokens < msg_tokens m -> c = [m].
Proof.
  intros Hc Hin Hover.
  pose proof (chunk_tokens_member c m Hin) as Hle.
  destruct c as [| x [| y c]].
  - destruct Hin.
  - destruct Hin as [-> | []]. reflexivity.
  - exfalso. assert (chunk_tokens (x :: y :: c) <= max_tokens) as Hb
        by (apply Hc; simpl; lia).
    lia.
Qed.

(** No emitted chunk is empty. *)
Lemma greedy_nonempty (l : list message) :
  forall (running : list message) (total : Z),
    Forall (fun c => c <> []) (greedy max_tokens running total l).
Proof.
  induction l as [| m l IH]; intros running total; simpl.
  - destruct running; simpl; auto. constructor; [discriminate | auto].
  - destruct ((total + msg_tokens m >? max_tokens) && nonempty running)
      eqn:Hc; [| apply IH].
    constructor; [| apply IH].
    apply andb_true_iff in Hc. destruct Hc as [_ Hne].
    destruct running; [discriminate Hne | discriminate].
Qed.

Lemma chunk_messages_chunks_nonempty (messages : list message) :
  Forall (fun c => c <> []) (chunk_messages messages max_tokens).
Proof.
  rewrite chunk_messages_greedy. apply greedy_nonempty.
Qed.

(** Chunk lengths are decided by the contents alone. *)
Lemma greedy_lengths (l1 : list message) :
  forall (l2 run1 run2 : list message) (total : Z),
    Forall2 (fun a b => content a = content b) l1 l2 ->
    length run1 = length run2 ->
    map (@length message) (greedy max_tokens run1 total l1)
    = map (@length message) (greedy max_tokens run2 total l2).
Proof.
  induction l1 as [| a l1 IH]; intros l2 run1 run2 total Hc Hlen;
    inversion Hc as [| a' b l1' l2' Hab Hrest]; subst; simpl.
  - destruct run1, run2; simpl in *; try discriminate; congruence.
  - assert (msg_tokens a = msg_tokens b) as Htok
        by (unfold msg_tokens; now rewrite Hab).
    assert (nonempty run1 = nonempty run2) as Hne
        by (destruct run1, run2; simpl in *; try discriminate; reflexivity).
    rewrite Htok, Hne.
    destruct ((total + msg_tokens b >? max_tokens) && nonempty run2); simpl.
    + f_equal; [exact Hlen |]. now apply IH.
    + apply IH; [exact Hrest |].
      rewrite !length_app; simpl; lia.
Qed.

End Chunking.

(** ** Facts about the float model *)

Section FloatFacts.
Import PyFloat.

(** The powers of two of the format, as numerals that [lia] and [nia] read. *)
Ltac binary64_constants :=
  change (2 ^ 48) with 281474976710656 in *;
  change (2 ^ 51) with 2251799813685248 in *;
  change (2 ^ 52) with 4503599627370496 in *;
  change (2 ^ 53) with 9007199254740992 in *.

Lemma rne_div_near (n d : Z) :
  0 < d -> - d <= 2 * (n - rne_div n d * d) <= d.
Proof.
  intros Hd. unfold rne_div; cbv zeta.
  pose proof (Z.div_mod n d ltac:(lia)) as Hdm.
  pose proof (Z.mod_pos_bound n d Hd) as Hr.
  revert Hdm Hr. generalize (n / d) (n mod d). intros q r Hdm Hr.
  destruct (2 * r ?= d) eqn:Hc.
  - apply Z.compare_eq in Hc. destruct (Z.even q); nia.
  - rewrite Z.compare_lt_iff in Hc. nia.
  - rewrite Z.compare_gt_iff in Hc. nia.
Qed.

Lemma rne_div_lower (n d k : Z) :
  0 < d -> k * d <= n -> k <= rne_div n d.
Proof.
  intros Hd Hk.
  assert (k <= n / d) as Hq by (apply Z.div_le_lower_bound; lia).
  unfold rne_div; cbv zeta.
  revert Hq. generalize (n / d) (n mod d). intros q r Hq.
  destruct (2 * r ?= d); [destruct (Z.even q) | |]; lia.
Qed.

Lemma rne_div_upper (n d k : Z) :
  0 < d -> n <= k * d -> rne_div n d <= k.
Proof.
  intros Hd Hk.
  pose proof (Z.div_mod n d ltac:(lia)) as Hdm.
  pose proof (Z.mod_pos_bound n d Hd) as Hr.
  assert (n / d < k \/ (n / d = k /\ n mod d = 0)) as Hq.
  { revert Hdm Hr. generalize (n / d) (n mod d). intros q r Hdm Hr. nia. }
  unfold rne_div; cbv zeta.
  revert Hq. generalize (n / d) (n mod d). intros q r Hq.
  destruct Hq as [Hq | [Hq Hz]].
  - destruct (2 * r ?= d); [destruct (Z.even q) | |]; lia.
  - subst r. destruct d; try lia. simpl. lia.
Qed.

Lemma pow2_nonneg_exp (e : Z) : 0 <= e -> pow2 e = 2 ^ e.
Proof. intros H. unfold pow2. now rewrite Z.max_r by lia. Qed.

Lemma pow2_nonpos_exp (e : Z) : e <= 0 -> pow2 e = 1.
Proof. intros H. unfold pow2. now rewrite Z.max_l by lia. Qed.

Lemma pow2_pos (e : Z) : 0 < pow2 e.
Proof. unfold pow2. apply Z.pow_pos_nonneg; lia. Qed.

(** Lowering the exponent by one doubles the scaled fraction. *)
Lemma pow2_step (e : Z) :
  pow2 (- (e - 1)) * pow2 e = 2 * (pow2 (- e) * pow2 (e - 1)).
Proof.
  destruct (Z_le_gt_dec e 0) as [H | H].
  - rewrite (pow2_nonpos_exp e), (pow2_nonpos_exp (e - 1)) by lia.
    rewrite !pow2_nonneg_exp by lia.
    replace (- (e - 1)) with (Z.succ (- e)) by lia.
    rewrite Z.pow_succ_r by lia. lia.
  - rewrite (pow2_nonpos_exp (- e)), (pow2_nonpos_exp (- (e - 1))) by lia.
    rewrite !pow2_nonneg_exp by lia.
    replace e with (Z.succ (e - 1)) at 1 by lia.
    rewrite Z.pow_succ_r by lia. lia.
Qed.

(** The first guess of the exponent is right or one too large. *)
Lemma first_exponent (n d : Z) :
  0 < n -> 0 < d ->
  let e0 := Z.log2 n - Z.log2 d - 52 in
  2 ^ 51 * (d * pow2 e0) < n * pow2 (- e0) < 2 ^ 53 * (d * pow2 e0).
Proof.
  intros Hn Hd e0.
  pose proof (Z.log2_spec n Hn) as [Hn1 Hn2].
  pose proof (Z.log2_spec d Hd) as [Hd1 Hd2].
  pose proof (Z.log2_nonneg n) as Hln.
  pose proof (Z.log2_nonneg d) as Hld.
  rewrite Z.pow_succ_r in Hn2, Hd2 by lia.
  assert (0 < 2 ^ Z.log2 d) as Hpd by (apply Z.pow_pos_nonneg; lia).
  destruct (Z_le_gt_dec 0 e0) as [H | H].
  - rewrite (pow2_nonneg_exp e0), (pow2_nonpos_exp (- e0)) by lia.
    assert (2 ^ Z.log2 n = 2 ^ 52 * (2 ^ Z.log2 d * 2 ^ e0)) as Heq.
    { rewrite <- !Z.pow_add_r by lia. f_equal. unfold e0. lia. }
    assert (0 < 2 ^ e0) as Hpe by (apply Z.pow_pos_nonneg; lia).
    binary64_constants.
    nia.
  - rewrite (pow2_nonpos_exp e0), (pow2_nonneg_exp (- e0)) by lia.
    assert (2 ^ Z.log2 n * 2 ^ (- e0) = 2 ^ 52 * 2 ^ Z.log2 d) as Heq.
    { rewrite <- !Z.pow_add_r by lia. f_equal. unfold e0. lia. }
    assert (0 < 2 ^ (- e0)) as Hpe by (apply Z.pow_pos_nonneg; lia).
    binary64_constants.
    nia.
Qed.

(** [round_ratio] normalises the scaled fraction into [[2^52, 2^53)] and
    rounds it to the nearest integer. *)
Lemma round_ratio_spec (n d : Z) :
  0 < n -> 0 < d ->
  let x := round_ratio n d in
  2 ^ 52 * (d * pow2 (expo x)) <= n * pow2 (- expo x)
  /\ n * pow2 (- expo x) < 2 ^ 53 * (d * pow2 (expo x))
  /\ mant x = rne_div (n * pow2 (- expo x)) (d * pow2 (expo x)).
Proof.
  intros Hn Hd. unfold round_ratio.
  replace (n =? 0) with false by (symmetry; apply Z.eqb_neq; lia).
  pose proof (first_exponent n d Hn Hd) as Hfirst. cbv zeta in Hfirst.
  set (e0 := Z.log2 n - Z.log2 d - 52) in *.
  destruct (n * pow2 (- e0) <? 2 ^ 52 * (d * pow2 e0)) eqn:Hlt;
    cbn [mant expo].
  - apply Z.ltb_lt in Hlt.
    pose proof (pow2_step e0) as Hstep.
    pose proof (pow2_pos e0) as HB. pose proof (pow2_pos (e0 - 1)) as HC.
    revert Hstep Hfirst Hlt HB HC.
    generalize (pow2 e0) (pow2 (- e0)) (pow2 (e0 - 1)) (pow2 (- (e0 - 1))).
    intros B A C E Hstep [Hlo Hhi] Hlt HB HC.
    binary64_constants.
    assert (n * E * B = 2 * (n * A) * C) as HN
        by (rewrite <- Z.mul_assoc, Hstep; ring).
    split; [| split; [| reflexivity]].
    + apply Zmult_le_reg_r with (p := B); [lia |].
      rewrite HN.
      replace (4503599627370496 * (d * C) * B)
        with (2 * (2251799813685248 * (d * B)) * C) by ring.
      apply Z.mul_le_mono_nonneg_r; lia.
    + apply Zmult_lt_reg_r with (p := B); [lia |].
      rewrite HN.
      replace (9007199254740992 * (d * C) * B)
        with (2 * (4503599627370496 * (d * B)) * C) by ring.
      apply Zmult_lt_compat_r; lia.
  - apply Z.ltb_ge in Hlt. split; [lia | split; [lia | reflexivity]].
Qed.

Lemma pow2_mono (a b : Z) : a <= b -> pow2 a <= pow2 b.
Proof.
  intros H. unfold pow2. apply Z.pow_le_mono_r; lia.
Qed.

Lemma rne_div_one (n : Z) : rne_div n 1 = n.
Proof.
  apply Z.le_antisymm.
  - apply rne_div_upper; lia.
  - apply rne_div_lower; lia.
Qed.

(** An [int] below [2^53] converts to a float without rounding. *)
Lemma of_int_exact (w : Z) :
  0 <= w < 2 ^ 53 -> num_of (of_int w) = w * den_of (of_int w).
Proof.
  intros [H0 H1].
  destruct (Z.eq_dec w 0) as [-> | Hw]; [reflexivity |].
  unfold of_int.
  destruct (round_ratio_spec w 1 ltac:(lia) ltac:(lia)) as (Hlo & _ & Hm).
  cbv zeta in Hlo, Hm. unfold num_of, den_of.
  set (e := expo (round_ratio w 1)) in *.
  assert (e <= 0) as He.
  { destruct (Z_le_gt_dec e 0) as [| Hpos]; [assumption | exfalso].
    rewrite (pow2_nonpos_exp (- e)) in Hlo by lia.
    pose proof (pow2_mono 1 e ltac:(lia)) as Hp.
    change (pow2 1) with 2 in Hp.
    binary64_constants. lia. }
  rewrite Hm, (pow2_nonpos_exp e He).
  rewrite !Z.mul_1_r. change (1 * 1) with 1. now rewrite rne_div_one.
Qed.

(** The product [w * 1.3], truncated, is the integer part of [13 w / 10]:
    the error of the literal and the rounding of the product stay below the
    distance from [13 w / 10] to the next integer. *)
Lemma to_int_mul_tokens_per_word (w : Z) :
  0 <= w < 2 ^ 48 ->
  to_int (mul (of_int w) (literal 13 10)) = 13 * w / 10.
Proof.
  intros [H0 H1].
  pose proof (of_int_exact w) as Hx.
  binary64_constants.
  specialize (Hx ltac:(lia)).
  unfold mul. rewrite Hx.
  change (num_of (literal 13 10)) with 5854679515581645.
  change (den_of (literal 13 10)) with 4503599627370496.
  pose proof (pow2_pos (- expo (of_int w))) as HP.
  fold (den_of (of_int w)) in HP.
  generalize dependent (den_of (of_int w)). intros P _ HP.
  destruct (Z.eq_dec w 0) as [-> | Hw]; [reflexivity |].
  set (N := w * P * 5854679515581645).
  set (D := P * 4503599627370496).
  assert (0 < N) as HN by (unfold N; nia).
  assert (0 < D) as HD by (unfold D; lia).
  destruct (round_ratio_spec N D HN HD) as (Hlo & _ & Hm).
  cbv zeta in Hlo, Hm. unfold to_int, num_of, den_of.
  set (e := expo (round_ratio N D)) in *.
  binary64_constants.
  assert (e <= -4) as He.
  { destruct (Z_le_gt_dec e (-4)) as [| Hbig]; [assumption | exfalso].
    pose proof (pow2_mono (- e) 3 ltac:(lia)) as Hq.
    change (pow2 3) with 8 in Hq.
    pose proof (pow2_pos e) as Hpe. pose proof (pow2_pos (- e)) as Hpq.
    revert Hlo Hq Hpe Hpq. generalize (pow2 e) (pow2 (- e)).
    intros B Q Hlo Hq Hpe Hpq. unfold N, D in Hlo.
    assert (4503599627370496 * (P * 4503599627370496 * 1)
            <= 4503599627370496 * (P * 4503599627370496 * B)) by nia.
    assert (w * P * 5854679515581645 * Q
            <= w * P * 5854679515581645 * 8) by nia.
    assert (w * P <= 281474976710655 * P) by nia.
    lia. }
  rewrite Hm, (pow2_nonpos_exp e) by lia.
  pose proof (pow2_mono 4 (- e) ltac:(lia)) as HQ.
  change (pow2 4) with 16 in HQ.
  revert HQ. generalize (pow2 (- e)). intros Q HQ.
  rewrite !Z.mul_1_r.
  pose proof (Z.div_mod (13 * w) 10 ltac:(lia)) as Hdm.
  pose proof (Z.mod_pos_bound (13 * w) 10 ltac:(lia)) as Hr.
  revert Hdm Hr. generalize (13 * w / 10) (13 * w mod 10).
  intros q r Hdm Hr.
  assert (w * Q <= 281474976710655 * Q) as HwQ by nia.
  assert (0 <= q) as Hq0 by lia.
  assert (q * Q <= rne_div (N * Q) D) as Hlow.
  { apply rne_div_lower; [exact HD |]. unfold N, D.
    replace (q * Q * (P * 4503599627370496))
      with (q * 4503599627370496 * (P * Q)) by ring.
    replace (w * P * 5854679515581645 * Q)
      with (w * 5854679515581645 * (P * Q)) by ring.
    apply Z.mul_le_mono_nonneg_r; nia. }
  assert (rne_div (N * Q) D <= (q + 1) * Q - 1) as Hupp.
  { apply rne_div_upper; [exact HD |]. unfold N, D.
    replace (((q + 1) * Q - 1) * (P * 4503599627370496))
      with (((q + 1) * Q - 1) * 4503599627370496 * P) by ring.
    replace (w * P * 5854679515581645 * Q)
      with (w * Q * 5854679515581645 * P) by ring.
    apply Z.mul_le_mono_nonneg_r; [lia |].
    assert (10 * (q * Q) = 13 * (w * Q) - r * Q) as Hq by nia.
    assert (r * Q <= 9 * Q) as HrQ by nia.
    nia. }
  symmetry. apply Z.div_unique with (r := rne_div (N * Q) D - q * Q); lia.
Qed.

(** [round(t / n, 1)] is within half a tenth of the exact quotient: the
    rounding of the division is too small to carry the quotient across a
    midpoint between two tenths. *)
Lemma round1_truediv_near (t n : Z) :
  0 <= t < 2 ^ 48 -> 0 < n ->
  - n <= 2 * (10 * t - round1 (truediv t n) * n) <= n.
Proof.
  intros [H0 H1] Hn.
  binary64_constants.
  destruct (Z.eq_dec t 0) as [-> | Ht].
  { unfold truediv, round_ratio. simpl (0 =? 0). cbv iota.
    change (round1 {| mant := 0; expo := 0 |}) with 0. lia. }
  unfold truediv.
  destruct (round_ratio_spec t n ltac:(lia) Hn) as (Hlo & _ & Hm).
  cbv zeta in Hlo, Hm. unfold round1, num_of, den_of.
  set (e := expo (round_ratio t n)) in *.
  binary64_constants.
  pose proof (pow2_pos e) as Hpe. pose proof (pow2_pos (- e)) as Hpq.
  assert (e < 0) as He.
  { destruct (Z_lt_ge_dec e 0) as [| Hbig]; [assumption | exfalso].
    rewrite (pow2_nonpos_exp (- e)) in Hlo by lia. nia. }
  rewrite (pow2_nonpos_exp e) in * by lia.
  rewrite Z.mul_1_r in *.
  pose proof (rne_div_near (t * pow2 (- e)) n Hn) as Hm1.
  rewrite <- Hm in Hm1.
  pose proof (rne_div_near (10 * mant (round_ratio t n)) (pow2 (- e)) Hpq)
    as Hk.
  revert Hlo Hpq Hm1 Hk.
  generalize (rne_div (10 * mant (round_ratio t n)) (pow2 (- e))).
  generalize (mant (round_ratio t n)) (pow2 (- e)).
  intros m P k Hlo HP Hm1 Hk.
  assert (16 * n < P) as HPn by nia.
  assert (- (n * P) <= 2 * (10 * m * n - k * P * n) <= n * P) as Hk' by nia.
  assert (- (n * P) - 10 * n <= 2 * (10 * (t * P) - k * P * n)
          <= n * P + 10 * n) as Hsum by lia.
  split.
  - apply Z.nlt_ge. intros Hc.
    assert (2 * (10 * t - k * n) <= - n - 1) as Hc' by lia.
    assert (2 * (10 * t - k * n) * P <= (- n - 1) * P) as Hc''
        by (apply Z.mul_le_mono_nonneg_r; lia).
    nia.
  - apply Z.nlt_ge. intros Hc.
    assert (n + 1 <= 2 * (10 * t - k * n)) as Hc' by lia.
    assert ((n + 1) * P <= 2 * (10 * t - k * n) * P) as Hc''
        by (apply Z.mul_le_mono_nonneg_r; lia).
    nia.
Qed.

(** The mantissa of a rounded positive ratio has 53 bits. *)
Lemma round_ratio_mant_range (n d : Z) :
  0 < n -> 0 < d -> 2 ^ 52 <= mant (round_ratio n d) <= 2 ^ 53.
Proof.
  intros Hn Hd.
  destruct (round_ratio_spec n d Hn Hd) as (Hlo & Hhi & Hm).
  cbv zeta in Hlo, Hhi, Hm. rewrite Hm.
  pose proof (pow2_pos (expo (round_ratio n d))) as Hp.
  split.
  - apply rne_div_lower; [nia | exact Hlo].
  - apply rne_div_upper; [nia | lia].
Qed.
End FloatFacts.

(** ** Facts about strings and rendering *)

Section StringFacts.
Import PyStr SmartChunker Reference.

(** [split] yields one piece per word start. *)
Lemma length_split_from (s : str) :
  forall cur : str,
    length (split_from cur s)
    = if truthy cur then S (word_starts false s) else word_starts true s.
Proof.
  induction s as [| c s IH]; intros cur; simpl.
  - destruct (truthy cur); reflexivity.
  - destruct (isspace c).
    + destruct (truthy cur); simpl; now rewrite IH.
    + rewrite IH. simpl. destruct (truthy cur); reflexivity.
Qed.

Lemma length_split (s : str) :
  Z.of_nat (length (split s)) = word_count s.
Proof.
  unfold split, word_count. now rewrite length_split_from.
Qed.

Lemma word_starts_all_space (s : str) :
  forallb isspace s = true -> word_starts true s = O.
Proof.
  induction s as [| c s IH]; simpl; [reflexivity |].
  intros H. apply andb_true_iff in H. destruct H as [Hc Hs].
  rewrite Hc. now apply IH.
Qed.

(** What [lstrip] leaves starts with a character that is not a space. *)
Lemma lstrip_head (s : str) (c : char) (r : str) :
  lstrip s = c :: r -> isspace c = false.
Proof.
  induction s as [| x s IH]; simpl; [discriminate |].
  destruct (isspace x) eqn:Hx; [exact IH |].
  intros H. injection H as -> _. exact Hx.
Qed.

(** What [strip] leaves ends with a character that is not a space. *)
Lemma strip_last (s : str) (c : char) (r : str) :
  strip s = r ++ [c] -> isspace c = false.
Proof.
  unfold strip, rstrip. intros H.
  apply (f_equal (@rev char)) in H.
  rewrite rev_involutive, rev_app_distr in H. simpl in H.
  exact (lstrip_head _ _ _ H).
Qed.


Lemma resolved_author_code (m : message) :
  or_text (author m) (or_text (current_username m) unknown)
  = resolved_author m.
Proof.
  unfold resolved_author, or_text.
  destruct (author m) as [[| c a] |];
    destruct (current_username m) as [[| c' u] |]; reflexivity.
Qed.

(** One iteration appends the record's line, or nothing when the trimmed
    content is empty. *)
Lemma format_step_line (ts : bool) (lines : list str) (m : message) :
  format_step ts lines m
  = lines ++ (if has_content m then [rendered_line ts m] else []).
Proof.
  unfold format_step, has_content, rendered_line.
  fold (trimmed m). rewrite resolved_author_code.
  destruct (truthy (trimmed m)); simpl negb; cbv iota.
  - unfold stamp_prefix, ts_truthy, ts_str.
    destruct ts; simpl andb; [| reflexivity].
    destruct (created_at m) as [[d | [| c s]] |]; simpl truthy; cbv iota;
      try reflexivity; now rewrite <- !app_assoc.
  - now rewrite app_nil_r.
Qed.

Lemma fold_format_step (ts : bool) (messages : list message) :
  forall lines : list str,
    fold_left (format_step ts) messages lines
    = lines ++ map (rendered_line ts) (filter has_content messages).
Proof.
  induction messages as [| m l IH]; intros lines; simpl.
  - now rewrite app_nil_r.
  - rewrite IH, format_step_line.
    destruct (has_content m); simpl.
    + now rewrite <- app_assoc.
    + now rewrite app_nil_r.
Qed.

Lemma rendered_line_ends_unspaced (ts : bool) (m : message) :
  has_content m = true -> ends_unspaced (rendered_line ts m).
Proof.
  unfold has_content. intros H.
  destruct (exists_last (l := trimmed m)) as (r & c & Hr).
  { intros E. rewrite E in H. discriminate. }
  exists (stamp_prefix ts m ++ resolved_author m ++ str_of_string ": " ++ r), c.
  split.
  - unfold rendered_line. rewrite Hr. now rewrite <- !app_assoc.
  - unfold trimmed in Hr. exact (strip_last _ _ _ Hr).
Qed.










End StringFacts.

(** ** Facts about statistics and estimates *)

Section StatsFacts.
Import PyStr SmartChunker Reference.

Lemma fold_left_add_tokens (l : list message) :
  forall a : Z,
    fold_left Z.add (map msg_tokens l) a = a + chunk_tokens l.
Proof.
  induction l as [| m l IH]; intros a; simpl; [lia |].
  rewrite IH. lia.
Qed.

Lemma sum_msg_tokens (l : list message) :
  sum (map msg_tokens l) = chunk_tokens l.
Proof. unfold sum. now rewrite fold_left_add_tokens. Qed.

(** Negating the floor of the negated quotient gives the ceiling. *)
Lemma neg_floor_neg_is_ceiling (t d : Z) :
  0 < d -> is_ceiling t d (- (- t / d)).
Proof.
  intros Hd. unfold is_ceiling.
  pose proof (Z.div_mod (- t) d ltac:(lia)) as Hdm.
  pose proof (Z.mod_pos_bound (- t) d Hd) as Hr.
  revert Hdm Hr. generalize (- t / d) (- t mod d). intros q r Hdm Hr.
  nia.
Qed.

Lemma stats_nonempty (messages : list message) :
  messages <> [] ->
  stats messages
  = {| total_messages := Z.of_nat (length messages);
       total_tokens := chunk_tokens messages;
       estimated_chunks :=
         Z.max 1 (- (- chunk_tokens messages / DEFAULT_MAX_TOKENS));
       avg_tokens_per_message :=
         PyFloat.round1
           (PyFloat.truediv (chunk_tokens messages)
                            (Z.of_nat (length messages))) |}.
Proof.
  intros Hne. unfold stats.
  destruct messages as [| m l]; [congruence |].
  change (negb (nonempty (m :: l))) with false; cbv iota zeta.
  now rewrite sum_msg_tokens.
Qed.

End StatsFacts.

Section EstimateFacts.
Import PyStr SmartChunker Reference.

(** On a non-empty string the estimate is the truncated product, never
    below one. *)
Lemma estimate_tokens_by_words (s : str) :
  s <> [] -> word_count s < 2 ^ 48 ->
  estimate_tokens s = Z.max 1 (13 * word_count s / 10).
Proof.
  intros Hne Hw. unfold estimate_tokens.
  destruct s as [| c s]; [congruence |].
  change (negb (truthy (c :: s))) with false; cbv iota.
  rewrite length_split. unfold TOKENS_PER_WORD.
  rewrite to_int_mul_tokens_per_word; [reflexivity |].
  split; [unfold word_count; lia | exact Hw].
Qed.

Lemma word_count_positive_nonempty (s : str) : 1 <= word_count s -> s <> [].
Proof. intros H E. subst s. unfold word_count in H. simpl in H. lia. Qed.

End EstimateFacts.

(** ** Properties of the chunker *)

Section Properties.
Import PyStr SmartChunker Reference Samples.

(** C1, concatenation law: for every list of rows and every positive
    budget, the chunks of [chunk_messages], flattened in order, are the
    input list itself: nothing is added, dropped or reordered. *)
Theorem chunk_messages_concat (messages : list message) (max_tokens : Z) :
  0 < max_tokens ->
  concat (chunk_messages messages max_tokens) = messages.
Proof.
  intros _. apply concat_chunk_messages.
Qed.

Lemma chunk_messages_concat_witness :
  0 < 8000
  /\ concat (chunk_messages [alice_row; blank_row; carol_row] 8000)
     = [alice_row; blank_row; carol_row].
Proof.
  split; [lia |].
  apply (chunk_messages_concat [alice_row; blank_row; carol_row] 8000).
  lia.
Defined.

(** C2, budget and no-split law: for a positive budget, every chunk of two
    or more records has a token total within the budget; a record whose own
    estimate exceeds the budget is alone in its chunk, and that chunk is
    part of the result. *)
Theorem chunk_messages_budget (messages : list message) (max_tokens : Z) :
  0 < max_tokens ->
  (forall c, In c (chunk_messages messages max_tokens) ->
             (2 <= length c)%nat -> chunk_tokens c <= max_tokens)
  /\ (forall c m, In c (chunk_messages messages max_tokens) -> In m c ->
                  max_tokens < msg_tokens m -> c = [m])
  /\ (forall m, In m messages -> max_tokens < msg_tokens m ->
                In [m] (chunk_messages messages max_tokens)).
Proof.
  intros _.
  pose proof (chunk_messages_within_budget max_tokens messages) as Hall.
  rewrite Forall_forall in Hall.
  split; [| split].
  - intros c Hc. exact (Hall c Hc).
  - intros c m Hc Hm Hover.
    exact (over_budget_alone max_tokens c m (Hall c Hc) Hm Hover).
  - intros m Hm Hover.
    rewrite <- (concat_chunk_messages max_tokens messages) in Hm.
    apply in_concat in Hm. destruct Hm as (c & Hc & Hmc).
    rewrite <- (over_budget_alone max_tokens c m (Hall c Hc) Hmc Hover).
    exact Hc.
Qed.

Lemma chunk_messages_budget_witness :
  0 < 8000
  /\ chunk_tokens [row (words 10%N); row (words 20%N)] <= 8000
  /\ In [row (words 7000%N)]
        (chunk_messages [row (words 100%N); row (words 7000%N);
                         row (words 10%N); row (words 20%N)] 8000).
Proof.
  destruct (chunk_messages_budget
              [row (words 100%N); row (words 7000%N);
               row (words 10%N); row (words 20%N)] 8000 ltac:(lia))
    as (Hbudget & _ & Halone).
  split; [lia | split].
  - apply Hbudget; [| simpl; lia].
    vm_compute. right; right; left; reflexivity.
  - apply Halone; [simpl; auto |].
    vm_compute. reflexivity.
Defined.

(** C3, greedy algorithm: for a positive budget [chunk_messages] returns
    what the greedy left-to-right scan returns; three records of 4000
    tokens each under a budget of 8000 are cut as [[r1, r2], [r3]]. *)
Theorem chunk_messages_is_greedy :
  (forall (messages : list message) (max_tokens : Z),
      0 < max_tokens ->
      chunk_messages messages max_tokens = greedy_chunks messages max_tokens)
  /\ (forall r1 r2 r3 : message,
         msg_tokens r1 = 4000 -> msg_tokens r2 = 4000 ->
         msg_tokens r3 = 4000 ->
         chunk_messages [r1; r2; r3] 8000 = [[r1; r2]; [r3]]).
Proof.
  split.
  - intros messages max_tokens _. apply chunk_messages_greedy.
  - intros r1 r2 r3 H1 H2 H3.
    rewrite chunk_messages_greedy. unfold greedy_chunks.
    cbn [greedy]. rewrite H1, H2, H3. reflexivity.
Qed.

Lemma chunk_messages_is_greedy_witness :
  0 < 8000
  /\ msg_tokens (row (words 3077%N)) = 4000
  /\ chunk_messages [row (words 3077%N); row (words 3077%N); row (words 3077%N)]
                    8000
     = [[row (words 3077%N); row (words 3077%N)]; [row (words 3077%N)]].
Proof.
  split; [lia | split].
  - vm_compute. reflexivity.
  - apply (proj2 chunk_messages_is_greedy); vm_compute; reflexivity.
Defined.

(** C4 as stated fails: "hello world" has two words and
    [max(1, round(2 * 1.3))] is 3, but [estimate_tokens] returns 2. *)
Lemma estimate_tokens_hello_world_not_rounded :
  1 <= word_count hello_world
  /\ rounded_estimate (word_count hello_world) = 3
  /\ estimate_tokens hello_world <> rounded_estimate (word_count hello_world).
Proof.
  vm_compute. repeat split; discriminate.
Qed.

(** C4, amended: for every string with at least one word (and fewer than
    [2^48] words) [estimate_tokens] returns [max(1, floor(w * 1.3))], the
    product truncated by [int], where [w] is the number of
    whitespace-delimited words; on "hello world" it returns 2. *)
Theorem estimate_tokens_truncates (s : str) :
  1 <= word_count s -> word_count s < 2 ^ 48 ->
  estimate_tokens s = truncated_estimate (word_count s)
  /\ estimate_tokens hello_world = 2.
Proof.
  intros Hw Hbound. split; [| vm_compute; reflexivity].
  unfold truncated_estimate.
  apply estimate_tokens_by_words; [| exact Hbound].
  now apply word_count_positive_nonempty.
Qed.

Lemma estimate_tokens_truncates_witness :
  1 <= word_count (words 10%N) /\ word_count (words 10%N) < 2 ^ 48
  /\ estimate_tokens (words 10%N) = 13.
Proof.
  split; [vm_compute; discriminate | split; [vm_compute; reflexivity |]].
  refine (eq_trans (proj1 (estimate_tokens_truncates (words 10%N) _ _)) _).
  - vm_compute; discriminate.
  - vm_compute; reflexivity.
  - vm_compute; reflexivity.
Defined.

(** C5 as stated fails: a string of three spaces is whitespace only, and
    [estimate_tokens] returns 1 for it. *)
Lemma estimate_tokens_spaces_not_zero :
  forallb isspace three_spaces = true
  /\ estimate_tokens three_spaces <> 0.
Proof.
  vm_compute. split; [reflexivity | discriminate].
Qed.

(** C5, amended: [estimate_tokens] returns 0 for the empty string, and 1
    for every non-empty string that consists of whitespace only. *)
Theorem estimate_tokens_blank :
  estimate_tokens [] = 0
  /\ (forall s : str,
         s <> [] -> forallb isspace s = true -> estimate_tokens s = 1).
Proof.
  split; [reflexivity |].
  intros s Hne Hsp.
  assert (word_count s = 0) as Hw
      by (unfold word_count; now rewrite word_starts_all_space).
  rewrite estimate_tokens_by_words; [| exact Hne | rewrite Hw; reflexivity].
  rewrite Hw. reflexivity.
Qed.

Lemma estimate_tokens_blank_witness :
  three_spaces <> [] /\ forallb isspace three_spaces = true
  /\ estimate_tokens three_spaces = 1.
Proof.
  split; [discriminate | split; [reflexivity |]].
  apply (proj2 estimate_tokens_blank); [discriminate | reflexivity].
Defined.





(** C7 as stated fails: a single row with empty content totals 0 tokens,
    so "the ceiling, with minimum 1 if any tokens" is 0, but [stats]
    reports 1 estimated chunk. *)
Lemma stats_blank_row_one_chunk :
  [row []] <> []
  /\ total_tokens (stats [row []]) = 0
  /\ estimated_chunks (stats [row []])
     <> chunks_if_any_tokens (total_tokens (stats [row []])).
Proof.
  split; [discriminate | split; [reflexivity |]].
  vm_compute. discriminate.
Qed.

(** C7, amended: for every non-empty list (of fewer than [2^48] tokens in
    total) [stats] returns the record count, the sum of the token
    estimates, [max(1, ceil(total / 8000))] whatever the total, and the
    total divided by the count rounded to one decimal (within half a tenth
    of the exact quotient); 4 records totalling 16000 tokens give 2
    estimated chunks and an average of 4000.0. *)
Theorem stats_fields (messages : list message) :
  messages <> [] -> chunk_tokens messages < 2 ^ 48 ->
  let r := stats messages in
  let n := Z.of_nat (length messages) in
  total_messages r = n
  /\ total_tokens r = chunk_tokens messages
  /\ (exists c : Z,
         is_ceiling (total_tokens r) DEFAULT_MAX_TOKENS c
         /\ estimated_chunks r = Z.max 1 c)
  /\ - n <= 2 * (10 * total_tokens r - avg_tokens_per_message r * n) <= n
  /\ (n = 4 -> total_tokens r = 16000 ->
      estimated_chunks r = 2 /\ avg_tokens_per_message r = 40000).
Proof.
  intros Hne Hbound. cbv zeta.
  rewrite (stats_nonempty messages Hne).
  cbn [total_messages total_tokens estimated_chunks avg_tokens_per_message].
  assert (0 < Z.of_nat (length messages)) as Hn
      by (destruct messages; [congruence | simpl length; lia]).
  pose proof (chunk_tokens_nonneg messages) as Hpos.
  split; [reflexivity | split; [reflexivity | split; [| split]]].
  - exists (- (- chunk_tokens messages / DEFAULT_MAX_TOKENS)).
    split; [| reflexivity].
    apply neg_floor_neg_is_ceiling. reflexivity.
  - apply round1_truediv_near; [split; assumption | exact Hn].
  - intros -> ->. split; vm_compute; reflexivity.
Qed.

Lemma stats_fields_witness :
  let four := [row (words 3077%N); row (words 3077%N);
               row (words 3077%N); row (words 3077%N)] in
  four <> [] /\ chunk_tokens four < 2 ^ 48
  /\ total_tokens (stats four) = 16000
  /\ estimated_chunks (stats four) = 2
  /\ avg_tokens_per_message (stats four) = 40000.
Proof.
  cbv zeta.
  assert (chunk_tokens [row (words 3077%N); row (words 3077%N);
                        row (words 3077%N); row (words 3077%N)] = 16000)
    as Htotal by (vm_compute; reflexivity).
  destruct (stats_fields [row (words 3077%N); row (words 3077%N);
                          row (words 3077%N); row (words 3077%N)])
    as (_ & Htot & _ & _ & Hfour).
  - discriminate.
  - rewrite Htotal. reflexivity.
  - cbv zeta in Htot, Hfour. rewrite Htotal in Htot.
    split; [discriminate | split; [rewrite Htotal; reflexivity |]].
    split; [exact Htot |].
    apply Hfour; [reflexivity | exact Htot].
Defined.

(** C8 as stated fails: with a budget of 0, and with a budget of -5, the
    call returns a chunking; no error is raised. *)
Lemma chunk_messages_accepts_bad_budget :
  chunk_messages_call [row hello_world] 0 = Returned [[row hello_world]]
  /\ chunk_messages_call [row hello_world] (-5)
     = Returned [[row hello_world]].
Proof.
  split; vm_compute; reflexivity.
Qed.

(** C8, amended: [chunk_messages] does not check the budget: for every
    list of rows and every budget that is zero or negative the call returns
    a chunking, never an error, and the chunks flattened in order are the
    input list. *)
Theorem chunk_messages_no_budget_check (messages : list message)
        (max_tokens : Z) :
  max_tokens <= 0 ->
  exists chunks : list (list message),
    chunk_messages_call messages max_tokens = Returned chunks
    /\ concat chunks = messages.
Proof.
  intros _. exists (chunk_messages messages max_tokens).
  split; [reflexivity | apply concat_chunk_messages].
Qed.

Lemma chunk_messages_no_budget_check_witness :
  -5 <= 0
  /\ exists chunks : list (list message),
       chunk_messages_call [alice_row; carol_row] (-5) = Returned chunks
       /\ concat chunks = [alice_row; carol_row].
Proof.
  split; [lia |].
  apply (chunk_messages_no_budget_check [alice_row; carol_row] (-5)). lia.
Defined.

(** C9, emptiness: on the empty list [chunk_messages] returns no chunk at
    all for every positive budget, [format_for_llm] returns the empty
    string, and [stats] returns four zero fields. *)
Theorem empty_input :
  (forall n : Z, 0 < n -> chunk_messages [] n = [])
  /\ (forall include_timestamps : bool,
         format_for_llm [] include_timestamps = [])
  /\ stats [] = {| total_messages := 0;
                   total_tokens := 0;
                   estimated_chunks := 0;
                   avg_tokens_per_message := 0 |}.
Proof.
  split; [| split]; reflexivity.
Qed.

Lemma empty_input_witness : 0 < 8000 /\ chunk_messages [] 8000 = [].
Proof.
  split; [lia |]. apply (proj1 empty_input). lia.
Defined.

(** C10, boundaries depend on contents only: two lists of the same length
    whose records have pairwise equal [content] are cut at the same
    positions by [chunk_messages] under the same budget, whatever their
    other fields hold. *)
Theorem chunk_boundaries_by_content (messages1 messages2 : list message)
        (max_tokens : Z) :
  Forall2 (fun a b => content a = content b) messages1 messages2 ->
  map (@length message) (chunk_messages messages1 max_tokens)
  = map (@length message) (chunk_messages messages2 max_tokens).
Proof.
  intros Hcontent. rewrite !chunk_messages_greedy. unfold greedy_chunks.
  now apply greedy_lengths.
Qed.

Lemma chunk_boundaries_by_content_witness :
  Forall2 (fun a b => content a = content b)
          [alice_row; carol_row] [anonymous_row; dave_row]
  /\ map (@length message) (chunk_messages [alice_row; carol_row] 8)
     = map (@length message) (chunk_messages [anonymous_row; dave_row] 8).
Proof.
  assert (Forall2 (fun a b => content a = content b)
                  [alice_row; carol_row] [anonymous_row; dave_row]) as H
      by (repeat constructor).
  split; [exact H |].
  exact (chunk_boundaries_by_content _ _ 8 H).
Defined.

End Properties.

(** ** Further facts about the partition *)

Section ChunkingMore.
Import PyStr SmartChunker Reference Samples Measures.

Variable max_tokens : Z.

Lemma length_concat_nonempty {A : Type} (L : list (list A)) :
  Forall (fun c => c <> []) L -> (length L <= length (concat L))%nat.
Proof.
  induction 1 as [| c L Hc _ IH]; simpl; [lia |].
  rewrite length_app. destruct c; [congruence | simpl; lia].
Qed.

(** The scan started with a non-empty running chunk emits a first chunk that
    extends it. *)
Lemma greedy_first_chunk (l : list message) :
  forall (running : list message) (total : Z),
    running <> [] ->
    exists (more : list message) (rest : list (list message)),
      greedy max_tokens running total l = (running ++ more) :: rest.
Proof.
  induction l as [| m l IH]; intros running total Hne; simpl.
  - destruct running; [congruence |]. simpl.
    exists [], []. now rewrite app_nil_r.
  - destruct ((total + msg_tokens m >? max_tokens) && nonempty running).
    + exists [], (greedy max_tokens [m] (msg_tokens m) l).
      now rewrite app_nil_r.
    + destruct (IH (running ++ [m]) (total + msg_tokens m)) as (more & rest & E).
      { now destruct running. }
      exists (m :: more), rest. rewrite E. now rewrite <- app_assoc.
Qed.

Lemma greedy_closed_by_overflow (l : list message) :
  forall (running : list message) (total : Z),
    total = chunk_tokens running ->
    closed_by_overflow max_tokens (greedy max_tokens running total l).
Proof.
  induction l as [| m l IH]; intros running total Htot; simpl.
  - destruct (nonempty running); exact I.
  - destruct ((total + msg_tokens m >? max_tokens) && nonempty running) eqn:Hc.
    + apply andb_true_iff in Hc. destruct Hc as [Hover _].
      rewrite Z.gtb_ltb in Hover. apply Z.ltb_lt in Hover.
      specialize (IH [m] (msg_tokens m) ltac:(simpl; lia)).
      destruct (greedy_first_chunk l [m] (msg_tokens m) ltac:(discriminate))
        as (more & rest & E).
      rewrite E in *. simpl. split; [lia | exact IH].
    + apply IH. rewrite chunk_tokens_app. simpl. lia.
Qed.

(** A list whose records fit the budget together stays in one chunk. *)
Lemma greedy_all_fit (l : list message) :
  forall (running : list message) (total : Z),
    total = chunk_tokens running ->
    chunk_tokens running + chunk_tokens l <= max_tokens ->
    greedy max_tokens running total l
    = if nonempty (running ++ l) then [running ++ l] else [].
Proof.
  induction l as [| m l IH]; intros running total Htot Hfit; simpl.
  - now rewrite app_nil_r.
  - simpl in Hfit. pose proof (chunk_tokens_nonneg l) as Hl.
    replace (total + msg_tokens m >? max_tokens) with false
      by (symmetry; rewrite Z.gtb_ltb; apply Z.ltb_ge; lia).
    simpl. rewrite IH.
    + now rewrite <- app_assoc.
    + rewrite chunk_tokens_app. simpl. lia.
    + rewrite chunk_tokens_app. simpl. lia.
Qed.

(** Under a negative budget every record closes the chunk before it. *)
Lemma greedy_negative_budget (l : list message) :
  max_tokens < 0 ->
  forall (running : list message) (total : Z),
    0 <= total -> running <> [] ->
    greedy max_tokens running total l = running :: map (fun m => [m]) l.
Proof.
  intros Hneg. induction l as [| m l IH]; intros running total Htot Hne; simpl.
  - destruct running; [congruence | reflexivity].
  - pose proof (msg_tokens_nonneg m) as Hm.
    replace (total + msg_tokens m >? max_tokens) with true
      by (symmetry; rewrite Z.gtb_ltb; apply Z.ltb_lt; lia).
    destruct running; [congruence |]. simpl.
    now rewrite IH by (assumption || discriminate).
Qed.

Lemma chunk_tokens_concat (L : list (list message)) :
  chunk_tokens (concat L) = chunks_tokens L.
Proof.
  induction L as [| c L IH]; simpl; [reflexivity |].
  now rewrite chunk_tokens_app, IH.
Qed.

(** Chunks closed by overflow weigh more than half the budget on average. *)
Lemma closed_by_overflow_weight (c : list message) (L : list (list message)) :
  closed_by_overflow max_tokens (c :: L) ->
  Z.of_nat (length L) * (max_tokens + 1) + chunk_tokens c
  <= 2 * chunks_tokens (c :: L).
Proof.
  revert c. induction L as [| c' L IH]; intros c Hclosed.
  - cbn [length chunks_tokens Z.of_nat].
    pose proof (chunk_tokens_nonneg c). lia.
  - destruct c' as [| m c']; [destruct Hclosed |].
    destruct Hclosed as [Hover Hrest].
    specialize (IH (m :: c') Hrest).
    change (chunks_tokens (c :: (m :: c') :: L))
      with (chunk_tokens c + chunks_tokens ((m :: c') :: L)).
    change (length ((m :: c') :: L)) with (S (length L)).
    pose proof (chunk_tokens_nonneg c').
    assert (msg_tokens m <= chunk_tokens (m :: c')) by (simpl; lia).
    lia.
Qed.

Lemma chunk_count_weight (messages : list message) :
  0 < max_tokens ->
  (Z.of_nat (length (chunk_messages messages max_tokens)) - 1)
  * (max_tokens + 1)
  <= 2 * chunk_tokens messages.
Proof.
  intros Hpos.
  pose proof (concat_chunk_messages max_tokens messages) as Hcat.
  pose proof (greedy_closed_by_overflow messages [] 0 eq_refl) as Hclosed.
  fold (greedy_chunks messages max_tokens) in Hclosed.
  rewrite <- chunk_messages_greedy in Hclosed.
  rewrite <- Hcat at 2. rewrite chunk_tokens_concat.
  destruct (chunk_messages messages max_tokens) as [| c L].
  - cbn [length chunks_tokens Z.of_nat]. lia.
  - pose proof (closed_by_overflow_weight c L Hclosed) as Hw.
    pose proof (chunk_tokens_nonneg c).
    change (length (c :: L)) with (S (length L)). lia.
Qed.

Lemma chunks_tokens_bound (L : list (list message)) :
  Forall (fun c => chunk_tokens c <= max_tokens) L ->
  chunks_tokens L <= max_tokens * Z.of_nat (length L).
Proof.
  induction 1 as [| c L Hc _ IH]; cbn [chunks_tokens length Z.of_nat]; [lia |].
  change (length (c :: L)) with (S (length L)). lia.
Qed.

(** When no record is over budget, no chunk is. *)
Lemma chunk_messages_all_within (messages : list message) :
  0 <= max_tokens ->
  Forall (fun m => msg_tokens m <= max_tokens) messages ->
  Forall (fun c => chunk_tokens c <= max_tokens)
         (chunk_messages messages max_tokens).
Proof.
  intros Hpos Hsmall.
  pose proof (chunk_messages_within_budget max_tokens messages) as Hbudget.
  pose proof (concat_chunk_messages max_tokens messages) as Hcat.
  rewrite Forall_forall in *. intros c Hc.
  destruct c as [| m [| m' c]].
  - simpl. exact Hpos.
  - simpl. rewrite Z.add_0_r. apply Hsmall.
    rewrite <- Hcat. apply in_concat. exists [m]. split; [exact Hc | now left].
  - apply (Hbudget _ Hc). simpl. lia.
Qed.


Lemma closed_by_overflow_suffix (before L : list (list message)) :
  closed_by_overflow max_tokens (before ++ L) ->
  closed_by_overflow max_tokens L.
Proof.
  induction before as [| p before IH]; intros H; [exact H |].
  apply IH. cbn [app] in H.
  destruct (before ++ L) as [| [| m x] rest]; cbn [closed_by_overflow] in *.
  - exact I.
  - destruct H.
  - exact (proj2 H).
Qed.

Lemma chunk_messages_counted (messages : list message) :
  (length (chunk_messages messages max_tokens) <= length messages)%nat
  /\ (messages <> [] ->
      (1 <= length (chunk_messages messages max_tokens))%nat).
Proof.
  pose proof (chunk_messages_chunks_nonempty max_tokens messages) as Hne.
  pose proof (concat_chunk_messages max_tokens messages) as Hcat.
  split.
  - rewrite <- Hcat at 2. now apply length_concat_nonempty.
  - intros Hm. destruct (chunk_messages messages max_tokens); [| simpl; lia].
    simpl in Hcat. congruence.
Qed.

Lemma chunk_messages_fitting (messages : list message) :
  messages <> [] -> chunk_tokens messages <= max_tokens ->
  chunk_messages messages max_tokens = [messages].
Proof.
  intros Hne Hfit. rewrite chunk_messages_greedy. unfold greedy_chunks.
  rewrite greedy_all_fit by (reflexivity || (simpl; lia)).
  destruct messages; [congruence | reflexivity].
Qed.

End ChunkingMore.

(** ** Further facts about rendering *)

Section RenderingMore.
Import PyStr SmartChunker Reference Samples Measures.

Lemma join_app (sep : str) (a b : list str) :
  a <> [] -> b <> [] ->
  join sep (a ++ b) = join sep a ++ sep ++ join sep b.
Proof.
  induction a as [| x a IH]; intros Ha Hb; [congruence |].
  destruct a as [| y a].
  - destruct b; [congruence | reflexivity].
  - change (join sep ((x :: y :: a) ++ b))
      with (x ++ sep ++ join sep ((y :: a) ++ b)).
    rewrite IH by (assumption || discriminate).
    change (join sep (x :: y :: a)) with (x ++ sep ++ join sep (y :: a)).
    now rewrite <- !app_assoc.
Qed.

Lemma join_nonempty (sep : str) (lines : list str) :
  lines <> [] -> Forall (fun l => l <> []) lines -> join sep lines <> [].
Proof.
  intros Hne Hall. destruct lines as [| l rest]; [congruence |].
  inversion Hall as [| ? ? Hl _]; subst.
  destruct rest; simpl; [exact Hl |].
  destruct l; [congruence | discriminate].
Qed.

Lemma join_empty_inv (sep : str) (lines : list str) :
  Forall (fun l => l <> []) lines -> join sep lines = [] -> lines = [].
Proof.
  intros Hall Hj. destruct lines as [| l rest]; [reflexivity |].
  exfalso. now apply (join_nonempty sep (l :: rest)).
Qed.

(** Joining the non-empty blocks of a list of line groups is joining all the
    lines. *)
Lemma join_blocks (sep : str) (groups : list (list str)) :
  Forall (Forall (fun l => l <> [])) groups ->
  join sep (filter truthy (map (join sep) groups)) = join sep (concat groups)
  /\ Forall (fun l => l <> []) (filter truthy (map (join sep) groups)).
Proof.
  induction 1 as [| g groups Hg Hgroups [IH IHne]];
    [split; [reflexivity | constructor] |].
  cbn [map filter concat].
  destruct g as [| l g].
  - exact (conj IH IHne).
  - assert (join sep (l :: g) <> []) as Hblock
        by (apply join_nonempty; [discriminate | exact Hg]).
    replace (truthy (join sep (l :: g))) with true
      by (destruct (join sep (l :: g)); [congruence | reflexivity]).
    cbv iota.
    split; [| constructor; [exact Hblock | exact IHne]].
    destruct (filter truthy (map (join sep) groups)) as [| b blocks] eqn:Hblocks.
    + simpl in IH. symmetry in IH.
      apply join_empty_inv in IH;
        [| apply Forall_concat; assumption].
      rewrite IH. now rewrite app_nil_r.
    + assert (concat groups <> []) as Hrest.
      { intros E.
        assert (join sep (b :: blocks) = join sep []) as IH'
            by (rewrite IH; f_equal; exact E).
        apply (join_nonempty sep (b :: blocks));
          [discriminate | exact IHne | exact IH']. }
      rewrite join_app by (discriminate || assumption).
      rewrite <- IH. reflexivity.
Qed.

(** The lines of a list of records. *)
Lemma format_for_llm_join (messages : list message) (ts : bool) :
  format_for_llm messages ts
  = join [newline] (map (rendered_line ts) (filter has_content messages)).
Proof.
  unfold format_for_llm. now rewrite fold_format_step.
Qed.

Lemma rendered_line_nonempty (ts : bool) (m : message) :
  has_content m = true -> rendered_line ts m <> [].
Proof.
  intros H. destruct (rendered_line_ends_unspaced ts m H) as (p & c & E & _).
  rewrite E. intros F. symmetry in F. now apply app_cons_not_nil in F.
Qed.

Lemma rendered_lines_nonempty (ts : bool) (messages : list message) :
  Forall (fun l => l <> [])
         (map (rendered_line ts) (filter has_content messages)).
Proof.
  apply Forall_forall. intros l Hl.
  apply in_map_iff in Hl. destruct Hl as (m & <- & Hm).
  apply filter_In in Hm. now apply rendered_line_nonempty.
Qed.

Lemma rendered_lines_concat (ts : bool) (chunks : list (list message)) :
  map (rendered_line ts) (filter has_content (concat chunks))
  = concat (map (fun c => map (rendered_line ts) (filter has_content c))
                chunks).
Proof.
  induction chunks as [| c chunks IH]; simpl; [reflexivity |].
  now rewrite filter_app, map_app, IH.
Qed.

(** [word_starts] does not see trailing spaces. *)
Lemma word_starts_spaces (w : str) (b : bool) :
  forallb isspace w = true -> word_starts b w = O.
Proof.
  revert b. induction w as [| c w IH]; intros b H; simpl; [reflexivity |].
  simpl in H. apply andb_true_iff in H. destruct H as [Hc Hw].
  rewrite Hc. now apply IH.
Qed.

Lemma word_starts_app_spaces (a w : str) (b : bool) :
  forallb isspace w = true -> word_starts b (a ++ w) = word_starts b a.
Proof.
  intros Hw. revert b. induction a as [| c a IH]; intros b; simpl.
  - now apply word_starts_spaces.
  - destruct (isspace c); now rewrite IH.
Qed.

Lemma lstrip_split (s : str) :
  exists w : str, forallb isspace w = true /\ s = w ++ lstrip s.
Proof.
  induction s as [| c s (w & Hw & E)]; simpl.
  - exists []. split; reflexivity.
  - destruct (isspace c) eqn:Hc.
    + exists (c :: w). simpl. rewrite Hc, Hw. split; [reflexivity |].
      now rewrite <- E.
    + exists []. split; reflexivity.
Qed.

Lemma word_starts_lstrip (s : str) :
  word_starts true (lstrip s) = word_starts true s.
Proof.
  induction s as [| c s IH]; simpl; [reflexivity |].
  destruct (isspace c) eqn:Hc; [exact IH |].
  simpl. now rewrite Hc.
Qed.

Lemma word_starts_rstrip (s : str) (b : bool) :
  word_starts b (rstrip s) = word_starts b s.
Proof.
  unfold rstrip. destruct (lstrip_split (rev s)) as (w & Hw & E).
  apply (f_equal (@rev char)) in E.
  rewrite rev_involutive, rev_app_distr in E.
  rewrite E at 2. rewrite word_starts_app_spaces; [reflexivity |].
  rewrite forallb_forall in *. intros c Hc. apply Hw. now apply in_rev.
Qed.

Lemma word_count_strip (s : str) : word_count (strip s) = word_count s.
Proof.
  unfold word_count, strip.
  now rewrite word_starts_rstrip, word_starts_lstrip.
Qed.

Lemma strip_nil : strip [] = [].
Proof. reflexivity. Qed.

Lemma estimate_tokens_strip (s : str) :
  strip s <> [] -> estimate_tokens (strip s) = estimate_tokens s.
Proof.
  intros Hne.
  assert (s <> []) as Hs by (intros ->; now apply Hne).
  unfold estimate_tokens.
  destruct (strip s) as [| c t] eqn:E; [congruence |].
  destruct s as [| c' s']; [congruence |].
  cbn [truthy negb]. rewrite <- E.
  now rewrite !length_split, word_count_strip.
Qed.

(** Newline counts. *)
Lemma newlines_app (a b : str) :
  newlines (a ++ b) = (newlines a + newlines b)%nat.
Proof. unfold newlines. apply count_occ_app. Qed.

Lemma newlines_none (s : str) : ~ In newline s -> newlines s = O.
Proof. unfold newlines. apply count_occ_not_In. Qed.

Lemma newlines_join (lines : list str) :
  Forall (fun l => newlines l = O) lines ->
  newlines (join [newline] lines) = (length lines - 1)%nat.
Proof.
  induction 1 as [| l lines Hl Hall IH]; [reflexivity |].
  destruct lines as [| l2 lines]; [simpl; exact Hl |].
  change (join [newline] (l :: l2 :: lines))
    with (l ++ [newline] ++ join [newline] (l2 :: lines)).
  rewrite !newlines_app, Hl, IH. simpl. lia.
Qed.

Lemma digit_not_newline (n : N) : digit n <> newline.
Proof. unfold digit, newline. lia. Qed.

Lemma pad2_no_newline (n : N) : newlines (pad2 n) = O.
Proof.
  apply newlines_none. unfold pad2.
  intros [H | [H | []]]; exact (digit_not_newline _ H).
Qed.

Lemma decimal_digits_no_newline (fuel : nat) :
  forall (n : N) (acc : str),
    ~ In newline acc -> ~ In newline (decimal_digits fuel n acc).
Proof.
  induction fuel as [| fuel IH]; intros n acc Hacc; [exact Hacc |].
  cbn [decimal_digits].
  assert (~ In newline (digit (n mod 10) :: acc)) as Hacc'.
  { intros [H | H]; [exact (digit_not_newline _ H) | exact (Hacc H)]. }
  destruct (n <? 10)%N; [exact Hacc' | now apply IH].
Qed.

Lemma decimal_no_newline (n : N) : newlines (decimal n) = O.
Proof.
  apply newlines_none. apply decimal_digits_no_newline. intros [].
Qed.

Lemma strftime_no_newline (d : datetime) : newlines (strftime d) = O.
Proof.
  unfold strftime.
  rewrite !newlines_app, decimal_no_newline, !pad2_no_newline. reflexivity.
Qed.

Lemma rendered_line_single (ts : bool) (m : message) :
  single_line m -> newlines (rendered_line ts m) = O.
Proof.
  intros (Hc & Ha & Hu & Ht). unfold rendered_line.
  rewrite !newlines_app, (newlines_none _ Hc).
  assert (newlines (resolved_author m) = O) as ->.
  { unfold resolved_author.
    destruct (author m) as [[| c a] |] eqn:Ea;
      [| apply newlines_none; now apply Ha | ];
      (destruct (current_username m) as [[| c u] |] eqn:Eu;
       [reflexivity | apply newlines_none; now apply Hu | reflexivity]). }
  assert (newlines (stamp_prefix ts m) = O) as ->.
  { unfold stamp_prefix. destruct ts; [| reflexivity].
    destruct (created_at m) as [[d | [| c s]] |] eqn:Et; try reflexivity.
    - rewrite !newlines_app, strftime_no_newline. reflexivity.
    - rewrite !newlines_app, (newlines_none (c :: s)) by now apply Ht.
      reflexivity. }
  reflexivity.
Qed.

End RenderingMore.

(** ** Facts about [str.replace] and the prompt filler *)

Section ReplaceFacts.
Import PyStr Processor Measures.

Lemma startswith_app (p rest : str) : startswith (p ++ rest) p = true.
Proof.
  induction p as [| c p IH]; simpl; [now destruct rest |].
  now rewrite N.eqb_refl, IH.
Qed.

Lemma startswith_inv (old : str) :
  forall s : str, startswith s old = true -> exists b : str, s = old ++ b.
Proof.
  induction old as [| p old IH]; intros s H.
  - exists s. reflexivity.
  - destruct s as [| c s]; [discriminate H |].
    simpl in H. apply andb_true_iff in H. destruct H as [Hc Hs].
    apply N.eqb_eq in Hc. subst c.
    destruct (IH s Hs) as (b & ->). exists b. reflexivity.
Qed.

(** The characters of a replaced occurrence are passed over. *)
Lemma replace_from_skip (old new a : str) :
  forall b : str,
    replace_from old new (length a) (a ++ b) = replace_from old new O b.
Proof.
  induction a as [| c a IH]; intros b; [reflexivity | exact (IH b)].
Qed.

Lemma replace_from_absent (old new : str) (s : str) :
  ~ occurs old s -> replace_from old new O s = s.
Proof.
  induction s as [| c s IH]; intros Habs; [reflexivity |].
  cbn [replace_from].
  destruct (startswith (c :: s) old) eqn:Hsw.
  - exfalso. apply Habs. destruct (startswith_inv old _ Hsw) as (b & E).
    exists [], b. exact E.
  - f_equal. apply IH. intros (a & b & E). apply Habs.
    exists (c :: a), b. rewrite E. reflexivity.
Qed.

Lemma replace_absent (s old new : str) :
  ~ occurs old s -> replace s old new = s.
Proof.
  intros Habs. unfold replace. destruct old as [| h old].
  - exfalso. apply Habs. exists [], s. reflexivity.
  - now apply replace_from_absent.
Qed.

(** An occurrence holds every character of the pattern. *)
Lemma occurs_head (h : char) (old s : str) :
  occurs (h :: old) s -> In h s.
Proof.
  intros (a & b & ->). apply in_or_app. right. now left.
Qed.

(** The first occurrence is replaced where it stands, and the scan goes on
    behind it without looking at the text put in. *)
Lemma replace_from_first (h : char) (old new pre : str) :
  forall post : str,
    ~ In h pre ->
    replace_from (h :: old) new O (pre ++ (h :: old) ++ post)
    = pre ++ new ++ replace_from (h :: old) new O post.
Proof.
  induction pre as [| c pre IH]; intros post Hpre.
  - cbn [app replace_from].
    change (h :: old ++ post) with ((h :: old) ++ post).
    rewrite startswith_app.
    cbn [length]. rewrite Nat.sub_succ, Nat.sub_0_r.
    now rewrite replace_from_skip.
  - cbn [app replace_from].
    assert (c <> h) as Hc by (intros ->; apply Hpre; now left).
    cbn [startswith].
    replace (c =? h)%N with false by (symmetry; now apply N.eqb_neq).
    cbn [andb]. f_equal. apply IH. intros Hin. apply Hpre. now right.
Qed.

Lemma replace_first (h : char) (old new pre post : str) :
  ~ In h pre -> ~ In h post ->
  replace (pre ++ (h :: old) ++ post) (h :: old) new = pre ++ new ++ post.
Proof.
  intros Hpre Hpost. unfold replace.
  rewrite replace_from_first by exact Hpre.
  rewrite replace_from_absent; [reflexivity |].
  intros Hocc. apply Hpost. exact (occurs_head _ _ _ Hocc).
Qed.

(** Two markers with brace-free keys match only when the keys are equal. *)
Lemma startswith_key (r : char) (k1 : str) :
  forall (k2 post : str),
    ~ In r k1 -> ~ In r k2 ->
    startswith (k2 ++ r :: post) (k1 ++ [r]) = true -> k1 = k2.
Proof.
  induction k1 as [| a k1 IH]; intros k2 post H1 H2 Hsw.
  - destruct k2 as [| c k2]; [reflexivity |].
    simpl in Hsw. apply andb_true_iff in Hsw. destruct Hsw as [Hc _].
    apply N.eqb_eq in Hc. subst c. exfalso. apply H2. now left.
  - destruct k2 as [| c k2]; simpl in Hsw;
      apply andb_true_iff in Hsw; destruct Hsw as [Hc Hsw];
      apply N.eqb_eq in Hc.
    + subst a. exfalso. apply H1. now left.
    + subst c. f_equal. apply (IH k2 post); [| | exact Hsw].
      * intros Hin. apply H1. now right.
      * intros Hin. apply H2. now right.
Qed.

Lemma placeholder_cons (key : str) :
  placeholder key = lbrace :: key ++ [rbrace].
Proof. reflexivity. Qed.

Lemma not_in_app {A : Type} (x : A) (a b : list A) :
  ~ In x a -> ~ In x b -> ~ In x (a ++ b).
Proof.
  intros Ha Hb Hin. apply in_app_or in Hin. tauto.
Qed.

(** The marker of one key does not occur in a text whose only brace opens
    the marker of another key. *)
Lemma other_marker_absent (k1 k2 mid post : str) :
  k1 <> k2 ->
  ~ In rbrace k1 -> ~ In rbrace k2 -> ~ In lbrace k2 ->
  ~ In lbrace mid -> ~ In lbrace post ->
  ~ occurs (placeholder k1) (mid ++ placeholder k2 ++ post).
Proof.
  intros Hk Hr1 Hr2 Hl2 Hmid Hpost (a & b & E).
  rewrite !placeholder_cons in E.
  revert a E. induction mid as [| c mid IH]; intros a E.
  - destruct a as [| x a].
    + cbn [app] in E. injection E as E.
      apply Hk. apply (startswith_key rbrace k1 k2 post Hr1 Hr2).
      rewrite <- app_assoc in E. cbn [app] in E. rewrite E.
      rewrite <- app_assoc. cbn [app].
      change (k1 ++ rbrace :: b) with (k1 ++ [rbrace] ++ b).
      rewrite app_assoc. apply startswith_app.
    + cbn [app] in E. injection E as _ E.
      assert (In lbrace ((k2 ++ [rbrace]) ++ post)) as Hin
          by (rewrite E; apply in_or_app; right; now left).
      apply in_app_or in Hin. destruct Hin as [Hin | Hin]; [| tauto].
      apply in_app_or in Hin. destruct Hin as [Hin | [Hin | []]]; [tauto |].
      discriminate Hin.
  - destruct a as [| x a].
    + cbn [app] in E. injection E as Hc _. apply Hmid. left. exact Hc.
    + cbn [app] in E. injection E as _ E.
      apply (IH ltac:(intros Hin; apply Hmid; now right) a E).
Qed.

End ReplaceFacts.

(** ** Further properties *)

Section FurtherProperties.
Import PyStr SmartChunker Reference Samples Processor Measures.

(** X1, chunks are never empty: whatever the budget, no chunk of
    [chunk_messages] is empty, so there are at most as many chunks as records,
    and at least one chunk when there is a record. *)
Theorem chunks_nonempty_and_counted (messages : list message) (max_tokens : Z) :
  Forall (fun c => c <> []) (chunk_messages messages max_tokens)
  /\ (length (chunk_messages messages max_tokens) <= length messages)%nat
  /\ (messages <> [] ->
      (1 <= length (chunk_messages messages max_tokens))%nat).
Proof.
  split; [apply chunk_messages_chunks_nonempty |].
  apply chunk_messages_counted.
Qed.

Lemma chunks_nonempty_and_counted_witness :
  [alice_row; carol_row] <> []
  /\ (1 <= length (chunk_messages [alice_row; carol_row] 8000))%nat.
Proof.
  split; [discriminate |].
  apply (chunks_nonempty_and_counted [alice_row; carol_row] 8000).
  discriminate.
Defined.

(** X2, a chunk is closed only on overflow: when a chunk is followed by
    another one, its token total plus the estimate of the first record of the
    next chunk exceeds the budget. *)
Theorem chunk_closed_on_overflow (messages : list message) (max_tokens : Z)
        (before : list (list message)) (c : list message) (m : message)
        (more : list message) (after : list (list message)) :
  chunk_messages messages max_tokens = before ++ c :: (m :: more) :: after ->
  max_tokens < chunk_tokens c + msg_tokens m.
Proof.
  intros Hsplit.
  pose proof (greedy_closed_by_overflow max_tokens messages [] 0 eq_refl)
    as Hclosed.
  fold (greedy_chunks messages max_tokens) in Hclosed.
  rewrite <- chunk_messages_greedy, Hsplit in Hclosed.
  apply closed_by_overflow_suffix in Hclosed.
  exact (proj1 Hclosed).
Qed.

Lemma chunk_closed_on_overflow_witness :
  chunk_messages [row (words 3077%N); row (words 3077%N); row (words 3077%N)]
                 8000
  = [] ++ [row (words 3077%N); row (words 3077%N)]
       :: (row (words 3077%N) :: []) :: []
  /\ 8000 < chunk_tokens [row (words 3077%N); row (words 3077%N)]
            + msg_tokens (row (words 3077%N)).
Proof.
  assert (chunk_messages
            [row (words 3077%N); row (words 3077%N); row (words 3077%N)] 8000
          = [] ++ [row (words 3077%N); row (words 3077%N)]
               :: (row (words 3077%N) :: []) :: []) as H
      by (vm_compute; reflexivity).
  split; [exact H |].
  exact (chunk_closed_on_overflow _ _ _ _ _ _ _ H).
Defined.

(** X3, a list that fits is one chunk: when the token estimates of a
    non-empty list sum to at most the budget, [chunk_messages] returns that
    list as its only chunk. *)
Theorem fitting_list_single_chunk (messages : list message) (max_tokens : Z) :
  messages <> [] -> chunk_tokens messages <= max_tokens ->
  chunk_messages messages max_tokens = [messages].
Proof.
  apply chunk_messages_fitting.
Qed.

Lemma fitting_list_single_chunk_witness :
  [alice_row; blank_row; carol_row] <> []
  /\ chunk_tokens [alice_row; blank_row; carol_row] <= 8000
  /\ chunk_messages [alice_row; blank_row; carol_row] 8000
     = [[alice_row; blank_row; carol_row]].
Proof.
  split; [discriminate | split; [vm_compute; discriminate |]].
  apply fitting_list_single_chunk; [discriminate | vm_compute; discriminate].
Defined.

(** X15, chunks are stable: cutting a chunk of the result again under the
    same budget returns that chunk alone. *)
Theorem chunks_are_stable (messages : list message) (max_tokens : Z)
        (c : list message) :
  In c (chunk_messages messages max_tokens) ->
  chunk_messages c max_tokens = [c].
Proof.
  intros Hc.
  pose proof (chunk_messages_within_budget max_tokens messages) as Hbudget.
  pose proof (chunk_messages_chunks_nonempty max_tokens messages) as Hne.
  rewrite Forall_forall in Hbudget, Hne.
  specialize (Hbudget c Hc). specialize (Hne c Hc).
  destruct c as [| m [| m' c]]; [congruence | |].
  - rewrite chunk_messages_greedy. unfold greedy_chunks.
    cbn [greedy]. rewrite andb_false_r. reflexivity.
  - apply chunk_messages_fitting; [discriminate |].
    apply Hbudget. simpl. lia.
Qed.

Lemma chunks_are_stable_witness :
  In [row (words 3077%N); row (words 3077%N)]
     (chunk_messages
        [row (words 3077%N); row (words 3077%N); row (words 3077%N)] 8000)
  /\ chunk_messages [row (words 3077%N); row (words 3077%N)] 8000
     = [[row (words 3077%N); row (words 3077%N)]].
Proof.
  assert (In [row (words 3077%N); row (words 3077%N)]
             (chunk_messages
                [row (words 3077%N); row (words 3077%N); row (words 3077%N)]
                8000)) as H
      by (vm_compute; left; reflexivity).
  split; [exact H |].
  exact (chunks_are_stable _ _ _ H).
Defined.

(** X4, negative budget: under a budget below zero every record is returned
    in a chunk of its own. *)
Theorem negative_budget_singletons (messages : list message) (max_tokens : Z) :
  max_tokens < 0 ->
  chunk_messages messages max_tokens = map (fun m => [m]) messages.
Proof.
  intros Hneg. rewrite chunk_messages_greedy. unfold greedy_chunks.
  destruct messages as [| m l]; [reflexivity |].
  pose proof (msg_tokens_nonneg m) as Hm.
  cbn [greedy map]. rewrite andb_false_r. cbn [app].
  apply greedy_negative_budget; [exact Hneg | lia | discriminate].
Qed.

Lemma negative_budget_singletons_witness :
  -5 < 0
  /\ chunk_messages [alice_row; blank_row; carol_row] (-5)
     = [[alice_row]; [blank_row]; [carol_row]].
Proof.
  split; [lia |].
  apply (negative_budget_singletons [alice_row; blank_row; carol_row] (-5)).
  lia.
Defined.

(** X5, chunk count bound: for a positive budget [B] and [k] chunks,
    [(k - 1) * (B + 1) <= 2 * total], the total being the sum of the token
    estimates: two neighbouring chunks together always exceed the budget. *)
Theorem chunk_count_bound (messages : list message) (max_tokens : Z) :
  0 < max_tokens ->
  (Z.of_nat (length (chunk_messages messages max_tokens)) - 1)
  * (max_tokens + 1)
  <= 2 * chunk_tokens messages.
Proof.
  apply chunk_count_weight.
Qed.

Lemma chunk_count_bound_witness :
  let three := [row (words 3077%N); row (words 3077%N); row (words 3077%N)] in
  0 < 8000
  /\ length (chunk_messages three 8000) = 2%nat
  /\ (Z.of_nat (length (chunk_messages three 8000)) - 1) * (8000 + 1)
     <= 2 * chunk_tokens three.
Proof.
  cbv zeta. split; [lia | split; [vm_compute; reflexivity |]].
  apply (chunk_count_bound
           [row (words 3077%N); row (words 3077%N); row (words 3077%N)] 8000).
  lia.
Defined.

(** X6, the estimate of [stats] against the real chunk count: for a non-empty
    list cut under the default budget, the number of chunks is at most twice
    [estimated_chunks], and it is at least [estimated_chunks] when no single
    record is estimated above the budget. *)
Theorem estimated_chunks_brackets_actual (messages : list message) :
  messages <> [] ->
  let actual :=
    Z.of_nat (length (chunk_messages messages DEFAULT_MAX_TOKENS)) in
  actual <= 2 * estimated_chunks (stats messages)
  /\ (Forall (fun m => msg_tokens m <= DEFAULT_MAX_TOKENS) messages ->
      estimated_chunks (stats messages) <= actual).
Proof.
  intros Hne. cbv zeta.
  rewrite (stats_nonempty messages Hne). cbn [estimated_chunks].
  pose proof (neg_floor_neg_is_ceiling (chunk_tokens messages)
                DEFAULT_MAX_TOKENS eq_refl) as Hceil.
  pose proof (chunk_count_weight DEFAULT_MAX_TOKENS messages eq_refl) as Hw.
  pose proof (proj2 (chunk_messages_counted DEFAULT_MAX_TOKENS messages) Hne)
    as Hone.
  unfold is_ceiling in Hceil.
  revert Hceil. generalize (- (- chunk_tokens messages / DEFAULT_MAX_TOKENS)).
  intros c Hceil. unfold DEFAULT_MAX_TOKENS in *.
  split; [lia |].
  intros Hsmall.
  pose proof (chunk_messages_all_within 8000 messages ltac:(lia) Hsmall)
    as Hall.
  apply chunks_tokens_bound in Hall.
  rewrite <- chunk_tokens_concat, concat_chunk_messages in Hall.
  lia.
Qed.

Lemma estimated_chunks_brackets_actual_witness :
  let three := [row (words 3077%N); row (words 3077%N); row (words 3077%N)] in
  three <> []
  /\ Forall (fun m => msg_tokens m <= DEFAULT_MAX_TOKENS) three
  /\ estimated_chunks (stats three)
     <= Z.of_nat (length (chunk_messages three DEFAULT_MAX_TOKENS))
     <= 2 * estimated_chunks (stats three).
Proof.
  cbv zeta.
  assert (Forall (fun m => msg_tokens m <= DEFAULT_MAX_TOKENS)
                 [row (words 3077%N); row (words 3077%N); row (words 3077%N)])
    as Hsmall by (repeat constructor; vm_compute; discriminate).
  destruct (estimated_chunks_brackets_actual
              [row (words 3077%N); row (words 3077%N); row (words 3077%N)]
              ltac:(discriminate)) as [Hupper Hlower].
  split; [discriminate | split; [exact Hsmall |]].
  split; [exact (Hlower Hsmall) | exact Hupper].
Defined.

(** X7, [chunk_and_format] loses no line: it returns one block per chunk, and
    its non-empty blocks joined by newlines are [format_for_llm] of the whole
    list, whatever the budget. *)
Theorem chunk_and_format_blocks (messages : list message) (max_tokens : Z)
        (include_timestamps : bool) :
  length (chunk_and_format messages max_tokens include_timestamps)
  = length (chunk_messages messages max_tokens)
  /\ join [newline]
          (filter truthy
                  (chunk_and_format messages max_tokens include_timestamps))
     = format_for_llm messages include_timestamps.
Proof.
  unfold chunk_and_format. split; [apply length_map |].
  rewrite (format_for_llm_join messages).
  rewrite <- (concat_chunk_messages max_tokens messages) at 2.
  rewrite rendered_lines_concat.
  destruct (join_blocks [newline]
              (map (fun c => map (rendered_line include_timestamps)
                                 (filter has_content c))
                   (chunk_messages messages max_tokens))) as [Hjoin _].
  - apply Forall_forall. intros g Hg.
    apply in_map_iff in Hg. destruct Hg as (c & <- & _).
    apply rendered_lines_nonempty.
  - rewrite <- Hjoin. rewrite map_map. f_equal. f_equal.
    apply map_ext. intros c. apply format_for_llm_join.
Qed.

(** X8, empty rendering: [format_for_llm] returns the empty string exactly
    when no record has content left after trimming. *)
Theorem format_for_llm_empty_iff (messages : list message)
        (include_timestamps : bool) :
  format_for_llm messages include_timestamps = []
  <-> (forall m, In m messages -> has_content m = false).
Proof.
  rewrite format_for_llm_join. split.
  - intros Hempty m Hm.
    apply join_empty_inv in Hempty; [| apply rendered_lines_nonempty].
    apply map_eq_nil in Hempty.
    destruct (has_content m) eqn:Hc; [| reflexivity].
    assert (In m (filter has_content messages)) as Hin
        by (apply filter_In; split; assumption).
    rewrite Hempty in Hin. destruct Hin.
  - intros Hnone.
    replace (filter has_content messages) with (@nil message); [reflexivity |].
    symmetry. induction messages as [| m l IH]; [reflexivity |].
    simpl. rewrite (Hnone m) by now left.
    apply IH. intros x Hx. apply Hnone. now right.
Qed.

Lemma format_for_llm_empty_iff_witness :
  (forall m, In m [blank_row; row []] -> has_content m = false)
  /\ format_for_llm [blank_row; row []] true = [].
Proof.
  assert (forall m, In m [blank_row; row []] -> has_content m = false) as H
      by (intros m [<- | [<- | []]]; reflexivity).
  split; [exact H |].
  exact (proj2 (format_for_llm_empty_iff [blank_row; row []] true) H).
Defined.

(** X9, one line per record: when the trimmed content, the author fields and
    a textual timestamp of the rendered records hold no newline, the output
    of [format_for_llm] has one newline less than there are records with
    content (and none when there is no such record). *)
Theorem format_for_llm_one_line_each (messages : list message)
        (include_timestamps : bool) :
  (forall m, In m messages -> has_content m = true -> single_line m) ->
  newlines (format_for_llm messages include_timestamps)
  = (length (filter has_content messages) - 1)%nat.
Proof.
  intros Hsingle. rewrite format_for_llm_join.
  rewrite newlines_join; [now rewrite length_map |].
  apply Forall_forall. intros l Hl.
  apply in_map_iff in Hl. destruct Hl as (m & <- & Hm).
  apply filter_In in Hm. destruct Hm as [Hin Hc].
  apply rendered_line_single. now apply Hsingle.
Qed.

Lemma format_for_llm_one_line_each_witness :
  (forall m, In m [alice_row; blank_row; carol_row] ->
             has_content m = true -> single_line m)
  /\ newlines (format_for_llm [alice_row; blank_row; carol_row] true) = 1%nat.
Proof.
  assert (forall m, In m [alice_row; blank_row; carol_row] ->
                    has_content m = true -> single_line m) as H.
  { intros m [<- | [<- | [<- | []]]] Hc; try discriminate Hc;
      (split; [vm_compute; intuition discriminate |]);
      (repeat split; intros s E; try discriminate E;
       injection E as <-; vm_compute; intuition discriminate). }
  split; [exact H |].
  exact (format_for_llm_one_line_each [alice_row; blank_row; carol_row] true H).
Defined.

(** X10, the budget charges the rendered text: for a record that
    [format_for_llm] renders, the estimate [chunk_messages] adds to the
    running total is the estimate of the trimmed content that is printed. *)
Theorem budget_charges_rendered_text (m : message) :
  has_content m = true -> msg_tokens m = estimate_tokens (trimmed m).
Proof.
  unfold has_content, msg_tokens, trimmed. intros Hc.
  symmetry. apply estimate_tokens_strip.
  intros E. rewrite E in Hc. discriminate.
Qed.

Lemma budget_charges_rendered_text_witness :
  has_content alice_row = true
  /\ msg_tokens alice_row = estimate_tokens (trimmed alice_row).
Proof.
  split; [reflexivity |].
  apply budget_charges_rendered_text. reflexivity.
Defined.

End FurtherProperties.

(** ** Properties of the prompt filler *)

Section FillTemplate.
Import PyStr SmartChunker Reference Samples Processor Measures.

Lemma repeated_key_nodup (keys : list str) :
  NoDup keys -> repeated_key keys = false.
Proof.
  induction 1 as [| k keys Hk _ IH]; [reflexivity |].
  cbn [repeated_key]. rewrite IH.
  destruct (in_dec (list_eq_dec N.eq_dec) k keys); [contradiction | reflexivity].
Qed.

(** A call whose keywords are distinct and other than [template] binds its
    arguments and runs the body. *)
Lemma fill_template_bound (template : str) (kwargs : list (str * str)) :
  ~ In template_name (map fst kwargs) -> NoDup (map fst kwargs) ->
  fill_template template kwargs
  = Returned (fill_template_body template kwargs).
Proof.
  intros Hname Hdup. unfold fill_template, binding_fails.
  rewrite (repeated_key_nodup _ Hdup).
  destruct (in_dec (list_eq_dec N.eq_dec) template_name (map fst kwargs));
    [contradiction | reflexivity].
Qed.

Lemma body_unmarked (template : str) (kwargs : list (str * str)) :
  (forall k v, In (k, v) kwargs -> ~ occurs (placeholder k) template) ->
  fill_template_body template kwargs = template.
Proof.
  unfold fill_template_body.
  induction kwargs as [| [k v] kwargs IH]; intros Habs.
  - reflexivity.
  - cbn [fold_left fst snd].
    rewrite replace_absent by (apply (Habs k v); now left).
    apply IH. intros k' v' Hin. apply (Habs k' v'). now right.
Qed.

Lemma body_single (before after key value : str) :
  ~ In lbrace before -> ~ In lbrace after ->
  fill_template_body (before ++ placeholder key ++ after) [(key, value)]
  = before ++ value ++ after.
Proof.
  intros Hb Ha. unfold fill_template_body. cbn [fold_left fst snd].
  rewrite placeholder_cons. now apply replace_first.
Qed.

Lemma body_two_keys (before mid after k1 k2 v1 v2 : str) :
  k1 <> k2 ->
  ~ In lbrace k2 -> ~ In rbrace k1 -> ~ In rbrace k2 ->
  ~ In lbrace before -> ~ In lbrace mid -> ~ In lbrace after ->
  ~ In lbrace v1 ->
  fill_template_body
    (before ++ placeholder k1 ++ mid ++ placeholder k2 ++ after)
    [(k1, v1); (k2, v2)]
  = before ++ v1 ++ mid ++ v2 ++ after.
Proof.
  intros Hk Hl2 Hr1 Hr2 Hb Hm Ha Hv. unfold fill_template_body.
  cbn [fold_left fst snd].
  assert (replace (before ++ placeholder k1 ++ mid ++ placeholder k2 ++ after)
                  (placeholder k1) v1
          = before ++ v1 ++ mid ++ placeholder k2 ++ after) as ->.
  { rewrite (placeholder_cons k1). unfold replace.
    rewrite replace_from_first by exact Hb.
    rewrite <- (placeholder_cons k1).
    rewrite replace_from_absent; [reflexivity |].
    now apply other_marker_absent. }
  replace (before ++ v1 ++ mid ++ placeholder k2 ++ after)
    with ((before ++ v1 ++ mid) ++ placeholder k2 ++ after)
    by (now rewrite <- !app_assoc).
  rewrite (placeholder_cons k2).
  rewrite replace_first; [now rewrite <- !app_assoc | | exact Ha].
  repeat apply not_in_app; assumption.
Qed.

Lemma body_rescans (before after k1 k2 value : str) :
  ~ In lbrace before -> ~ In lbrace after ->
  fill_template_body (before ++ placeholder k1 ++ after)
                     [(k1, placeholder k2); (k2, value)]
  = before ++ value ++ after.
Proof.
  intros Hb Ha. unfold fill_template_body. cbn [fold_left fst snd].
  rewrite (placeholder_cons k1).
  rewrite replace_first by assumption.
  rewrite (placeholder_cons k2).
  now apply replace_first.
Qed.

Lemma two_keys_bound (k1 k2 v1 v2 : str) :
  k1 <> k2 -> k1 <> template_name -> k2 <> template_name ->
  ~ In template_name (map fst [(k1, v1); (k2, v2)])
  /\ NoDup (map fst [(k1, v1); (k2, v2)]).
Proof.
  intros Hk H1 H2. cbn [map fst]. split.
  - intros [E | [E | []]]; congruence.
  - constructor; [intros [E | []]; congruence |].
    constructor; [intros [] | constructor].
Qed.

(** X11, a template without markers is left alone: in a call whose keywords
    are distinct and none of them named [template], when the marker of no
    keyword occurs in the template, [_fill_template] returns the template
    unchanged. *)
Theorem fill_template_unmarked (template : str) (kwargs : list (str * str)) :
  ~ In template_name (map fst kwargs) -> NoDup (map fst kwargs) ->
  (forall k v, In (k, v) kwargs -> ~ occurs (placeholder k) template) ->
  fill_template template kwargs = Returned template.
Proof.
  intros Hname Hdup Habs.
  rewrite fill_template_bound by assumption.
  now rewrite body_unmarked.
Qed.

Lemma fill_template_unmarked_witness :
  ~ In template_name
       (map fst [(str_of_string "username", str_of_string "al")])
  /\ NoDup (map fst [(str_of_string "username", str_of_string "al")])
  /\ (forall k v,
         In (k, v) [(str_of_string "username", str_of_string "al")] ->
         ~ occurs (placeholder k) (str_of_string "Summarise the week."))
  /\ fill_template (str_of_string "Summarise the week.")
                   [(str_of_string "username", str_of_string "al")]
     = Returned (str_of_string "Summarise the week.").
Proof.
  assert (~ In template_name
               (map fst [(str_of_string "username", str_of_string "al")]))
    as Hname by (vm_compute; intuition discriminate).
  assert (NoDup (map fst [(str_of_string "username", str_of_string "al")]))
    as Hdup by (repeat constructor; intros []).
  assert (forall k v,
             In (k, v) [(str_of_string "username", str_of_string "al")] ->
             ~ occurs (placeholder k) (str_of_string "Summarise the week."))
    as H.
  { intros k v _ Hocc. rewrite placeholder_cons in Hocc.
    apply occurs_head in Hocc. vm_compute in Hocc.
    intuition discriminate. }
  split; [exact Hname | split; [exact Hdup | split; [exact H |]]].
  exact (fill_template_unmarked _ _ Hname Hdup H).
Defined.

(** X12, braces in the value are not interpreted: in a template whose only
    opening brace is that of the marker, [_fill_template] with one keyword,
    not named [template], puts the value in place of the marker, whatever
    the value holds. *)
Theorem fill_template_single (before after key value : str) :
  key <> template_name ->
  ~ In lbrace before -> ~ In lbrace after ->
  fill_template (before ++ placeholder key ++ after) [(key, value)]
  = Returned (before ++ value ++ after).
Proof.
  intros Hkey Hb Ha.
  rewrite fill_template_bound.
  - now rewrite body_single.
  - cbn [map fst]. intros [E | []]. congruence.
  - cbn [map fst]. constructor; [intros [] | constructor].
Qed.

Lemma fill_template_single_witness :
  str_of_string "messages" <> template_name
  /\ ~ In lbrace (str_of_string "Messages: ")
  /\ ~ In lbrace (str_of_string " End.")
  /\ fill_template
       (str_of_string "Messages: " ++ placeholder (str_of_string "messages")
          ++ str_of_string " End.")
       [(str_of_string "messages", str_of_string "struct s { int x; };")]
     = Returned (str_of_string "Messages: "
                   ++ str_of_string "struct s { int x; };"
                   ++ str_of_string " End.").
Proof.
  assert (str_of_string "messages" <> template_name) as Hkey
      by (vm_compute; discriminate).
  assert (~ In lbrace (str_of_string "Messages: ")) as Hb
      by (vm_compute; intuition discriminate).
  assert (~ In lbrace (str_of_string " End.")) as Ha
      by (vm_compute; intuition discriminate).
  split; [exact Hkey | split; [exact Hb | split; [exact Ha |]]].
  exact (fill_template_single _ _ _ _ Hkey Hb Ha).
Defined.

(** X13, two keywords: for two distinct brace-free keys, neither named
    [template], in a template whose only opening braces are those of the two
    markers, first key first, the two values take the places of their
    markers, provided the first value holds no opening brace; the second
    value may hold anything. *)
Theorem fill_template_two_keys (before mid after k1 k2 v1 v2 : str) :
  k1 <> k2 -> k1 <> template_name -> k2 <> template_name ->
  ~ In lbrace k2 -> ~ In rbrace k1 -> ~ In rbrace k2 ->
  ~ In lbrace before -> ~ In lbrace mid -> ~ In lbrace after ->
  ~ In lbrace v1 ->
  fill_template
    (before ++ placeholder k1 ++ mid ++ placeholder k2 ++ after)
    [(k1, v1); (k2, v2)]
  = Returned (before ++ v1 ++ mid ++ v2 ++ after).
Proof.
  intros Hk Hn1 Hn2 Hl2 Hr1 Hr2 Hb Hm Ha Hv.
  destruct (two_keys_bound k1 k2 v1 v2 Hk Hn1 Hn2) as [Hname Hdup].
  rewrite fill_template_bound by assumption.
  now rewrite body_two_keys.
Qed.

Lemma fill_template_two_keys_witness :
  fill_template
    (str_of_string "User " ++ placeholder (str_of_string "username")
       ++ str_of_string " wrote: " ++ placeholder (str_of_string "messages")
       ++ str_of_string ".")
    [(str_of_string "username", str_of_string "al");
     (str_of_string "messages", str_of_string "{username} {x}")]
  = Returned (str_of_string "User " ++ str_of_string "al"
                ++ str_of_string " wrote: "
                ++ str_of_string "{username} {x}" ++ str_of_string ".").
Proof.
  apply fill_template_two_keys;
    try (vm_compute; intuition discriminate).
Defined.

(** X14, an earlier value is scanned again: with two distinct keywords,
    neither named [template], when the value of the first keyword is the
    marker of the second, the second value ends up in the place of the first
    marker. *)
Theorem fill_template_rescans (before after k1 k2 value : str) :
  k1 <> k2 -> k1 <> template_name -> k2 <> template_name ->
  ~ In lbrace before -> ~ In lbrace after ->
  fill_template (before ++ placeholder k1 ++ after)
                [(k1, placeholder k2); (k2, value)]
  = Returned (before ++ value ++ after).
Proof.
  intros Hk Hn1 Hn2 Hb Ha.
  destruct (two_keys_bound k1 k2 (placeholder k2) value Hk Hn1 Hn2)
    as [Hname Hdup].
  rewrite fill_template_bound by assumption.
  now rewrite body_rescans.
Qed.

Lemma fill_template_rescans_witness :
  str_of_string "username" <> str_of_string "messages"
  /\ ~ In lbrace (str_of_string "User ")
  /\ ~ In lbrace (str_of_string ".")
  /\ fill_template
       (str_of_string "User " ++ placeholder (str_of_string "username")
          ++ str_of_string ".")
       [(str_of_string "username", placeholder (str_of_string "messages"));
        (str_of_string "messages", str_of_string "hi")]
     = Returned (str_of_string "User " ++ str_of_string "hi"
                   ++ str_of_string ".").
Proof.
  assert (str_of_string "username" <> str_of_string "messages") as Hk
      by (vm_compute; discriminate).
  assert (~ In lbrace (str_of_string "User ")) as Hb
      by (vm_compute; intuition discriminate).
  assert (~ In lbrace (str_of_string ".")) as Ha
      by (vm_compute; intuition discriminate).
  split; [exact Hk | split; [exact Hb | split; [exact Ha |]]].
  apply (fill_template_rescans _ _ _ _ _ Hk); try assumption;
    vm_compute; discriminate.
Defined.

End FillTemplate.
